(** * delete_all_documents.py: the purge loop of a Watson Discovery V2 collection

    A shallow embedding of [delete_all_documents.py] and the properties of
    its query / diff / delete / wait loop.

    The remote service is an oracle ([World]): the script is a client, and
    what a query or a delete request answers is not decided by the script.
    Everything the script does that can be observed is logged as an [Event]
    in the order in which it happens. *)

From stdpp Require Import gmap strings list sets pretty.
From Stdlib Require Import ZArith Lia.

Local Open Scope string_scope.
Local Open Scope list_scope.
Local Open Scope nat_scope.

(** ** Data *)

(** One record of [matched_documents['results']]: the query asks for the
    field [document_id] only ([return_=['document_id']]). *)
Record QueryHit := { document_id : string }.

(** The result of [discovery.query(...).get_result()], restricted to the two
    keys the script reads.  [matching_results] is a Python [int]. *)
Record QueryResult := {
  matching_results : Z;
  results : list QueryHit
}.

(** What can be observed of a run. *)
Inductive Event :=
| Print (line : string)                         (* print(...) *)
| Sleep (seconds : Z)                           (* time.sleep(...) *)
| Query (project collection : string) (count : Z)
                                                (* discovery.query(...) *)
| Dispatch (max_workers : nat) (project collection : string) (ids : list string).
                                                (* executor.map(delete_task, diff) *)

(** How a piece of the script ends.
    - [Running]: control falls through to the next statement (for the loop:
      the next evaluation of [while keep_deleting]);
    - [Completed]: the [while] loop has ended and the script reached its end;
    - [Exited status]: [sys.exit(...)] was called;
    - [Raised]: an exception reached the top level. *)
Inductive Outcome :=
| Running
| Completed
| Exited (status : Z)
| Raised.

(** [sys.exit(arg)]: without an argument the exit status is zero. *)
Definition sys_exit (arg : option Z) : Outcome := Exited (default 0%Z arg).

(** The exit status of the process for an outcome that ends it. *)
Definition exit_status (o : Outcome) : option Z :=
  match o with
  | Running => None
  | Completed => Some 0%Z
  | Exited status => Some status
  | Raised => Some 1%Z
  end.

(** The remote service.  [tick] counts the calls of [discovery.query] made so
    far: the answers may change over time.  [None] is a raised exception. *)
Record World := {
  discovery_query :
    forall (tick : nat) (project collection : string) (count : Z), option QueryResult;
  discovery_delete_document :
    forall (tick : nat) (project collection did : string), option string
}.

(** ** Start-up (lines 46-60) *)

Record Config := {
  api_url : string;
  token : string;
  project_id : string;
  collection_id : string
}.

Definition usage_message : string :=
  "Usage: delete_all_documents.py project_id collection_id".
Definition no_url_message : string :=
  "WD_URL is not set. Set it to the Watson Discovery instance API URL.".
Definition no_token_message : string :=
  "WD_TOKEN is not set. Set it to the Watson Discovery instance API TOKEN.".

(** [argv] is [sys.argv], [environ] is [os.environ].  The result is the
    lines printed and either the way the process ended or the configuration
    the main loop runs with. *)
Definition startup (argv : list string) (environ : gmap string string)
  : list Event * (Outcome + Config) :=
  if decide (length argv < 3) then ([Print usage_message], inl (sys_exit None))
  else
    match environ !! "WD_URL" with
    | None => ([Print no_url_message], inl (sys_exit None))
    | Some url =>
        match environ !! "WD_TOKEN" with
        | None => ([Print no_token_message], inl (sys_exit None))
        | Some tok =>
            ([], inr {| api_url := url;
                        token := tok;
                        project_id := default "" (argv !! 1);
                        collection_id := default "" (argv !! 2) |})
        end
    end.

(** ** Constants (lines 77-82) *)

Definition batch_size : Z := 1000.
Definition max_threads : nat := 16.
Definition max_tries : nat := 5.

(** ** The state of the main loop *)

(** The module-level names the loop reads and writes.  [matched_documents]
    is [None] as long as the name is not bound.  [tick] and [trace] are the
    ghost clock of the oracle and the log of events. *)
Record State := {
  already_deleted : gset string;
  keep_deleting : bool;
  matched_documents : option QueryResult;
  tick : nat;
  trace : list Event
}.

Definition initial_state : State :=
  {| already_deleted := ∅;
     keep_deleting := true;
     matched_documents := None;
     tick := 0;
     trace := [] |}.

Definition emit (evs : list Event) (s : State) : State :=
  {| already_deleted := already_deleted s;
     keep_deleting := keep_deleting s;
     matched_documents := matched_documents s;
     tick := tick s;
     trace := trace s ++ evs |}.

Definition set_already_deleted (d : gset string) (s : State) : State :=
  {| already_deleted := d;
     keep_deleting := keep_deleting s;
     matched_documents := matched_documents s;
     tick := tick s;
     trace := trace s |}.

Definition set_keep_deleting (b : bool) (s : State) : State :=
  {| already_deleted := already_deleted s;
     keep_deleting := b;
     matched_documents := matched_documents s;
     tick := tick s;
     trace := trace s |}.

Definition set_matched_documents (r : QueryResult) (s : State) : State :=
  {| already_deleted := already_deleted s;
     keep_deleting := keep_deleting s;
     matched_documents := Some r;
     tick := tick s;
     trace := trace s |}.

Definition next_tick (s : State) : State :=
  {| already_deleted := already_deleted s;
     keep_deleting := keep_deleting s;
     matched_documents := matched_documents s;
     tick := S (tick s);
     trace := trace s |}.

Definition retry_message : string :=
  "Got an exception while querying the collection. Will try again...".
Definition giving_up_message : string := "Giving up.".
Definition waiting_message : string :=
  "Waiting for delete requests to reach the index...".
Definition no_documents_message : string :=
  "No documents found in the collection.".
Definition sent_message (n : nat) : string :=
  pretty n +:+ " delete requests sent.".

(** ** The difference (lines 124-129) *)

(** [set(docids).difference(already_deleted)], for the [docids] of a query
    result. *)
Definition pending_batch (md : QueryResult) (s : State) : gset string :=
  list_to_set (document_id <$> results md) ∖ already_deleted s.

Section Script.

Context (W : World) (cfg : Config).

(** ** [delete_task] (lines 88-95) *)

(** The task returns the response of the delete request, or raises what the
    request raises: there is no handler. *)
Definition delete_task (now : nat) (did : string) : option string :=
  discovery_delete_document W now (project_id cfg) (collection_id cfg) did.

(** ** The polling loop (lines 104-116) *)

(** [for how_many_tries in range(max_tries)]: [range] is the list of the
    values still to come, [tries] the current binding of [how_many_tries]
    ([None]: not bound yet).  A query that returns binds
    [matched_documents] and leaves the loop ([break]); one that raises
    prints, sleeps one second and goes on with the next value. *)
Fixpoint query_loop (range : list nat) (tries : option nat) (s : State)
  : option nat * State :=
  match range with
  | [] => (tries, s)
  | i :: range' =>
      let q := Query (project_id cfg) (collection_id cfg) batch_size in
      match discovery_query W (tick s) (project_id cfg) (collection_id cfg) batch_size with
      | Some r =>
          (Some i, set_matched_documents r (next_tick (emit [q] s)))
      | None =>
          query_loop range' (Some i)
            (emit [Print retry_message; Sleep 1] (next_tick (emit [q] s)))
      end
  end.

(** ** Reporting the delete results (lines 146-147) *)

(** [for dr in delete_results: print(dr)]: the iterator of [executor.map]
    yields the results in the order of submission, and raises the exception
    of a task when its result is asked for.  The result is the lines printed
    and whether the loop ran to its end. *)
Fixpoint report (delete_results : list (option string)) : list Event * bool :=
  match delete_results with
  | [] => ([], true)
  | Some dr :: rest =>
      let '(evs, finished) := report rest in (Print dr :: evs, finished)
  | None :: _ => ([], false)
  end.

(** ** The body of the loop after the poll (lines 122-153) *)

Definition diffing (md : QueryResult) (s : State) : Outcome * State :=
  if decide (0 < matching_results md)%Z then
    let diff := pending_batch md s in
    if decide (size diff = 0) then
      (Running, emit [Print waiting_message; Sleep 30] s)
    else
      let ids := elements diff in
      let s1 :=
        set_already_deleted (already_deleted s ∪ diff)
          (emit [Dispatch max_threads (project_id cfg) (collection_id cfg) ids] s) in
      let '(evs, finished) := report (delete_task (tick s) <$> ids) in
      if finished then
        (Running, emit (evs ++ [Print (sent_message (size (already_deleted s1)))]) s1)
      else
        (Raised, emit evs s1)
  else
    (Running, set_keep_deleting false (emit [Print no_documents_message] s)).

(** ** One pass through the body of [while keep_deleting] (lines 103-153) *)

Definition body (s : State) : Outcome * State :=
  let '(tries, s1) := query_loop (seq 0 max_tries) None s in
  match tries with
  | None => (Raised, s1)                        (* NameError: how_many_tries *)
  | Some n =>
      if decide (n = max_tries - 1) then
        (sys_exit None, emit [Print giving_up_message] s1)
      else
        match matched_documents s1 with
        | None => (Raised, s1)                  (* NameError: matched_documents *)
        | Some md => diffing md s1
        end
  end.

(** ** The main loop (line 102) *)

(** [fuel] bounds the number of passes: the loop itself has no bound.  The
    outcome is [Running] when the loop is still going after [fuel] passes. *)
Fixpoint main_loop (fuel : nat) (s : State) : Outcome * State :=
  match fuel with
  | O => (if keep_deleting s then Running else Completed, s)
  | S fuel' =>
      if keep_deleting s then
        match body s with
        | (Running, s') => main_loop fuel' s'
        | stopped => stopped
        end
      else (Completed, s)
  end.

End Script.

(** ** The whole script *)

Definition script (fuel : nat) (W : World) (argv : list string)
    (environ : gmap string string) : Outcome * list Event :=
  match startup argv environ with
  | (evs, inl o) => (o, evs)
  | (evs, inr cfg) =>
      let '(o, s) := main_loop W cfg fuel (emit evs initial_state) in
      (o, trace s)
  end.

(** ** The worker pool of the dispatch block (lines 141-147)

    [ThreadPoolExecutor(max_workers = max_threads)] and [executor.map], as
    the standard library defines them ([concurrent/futures/_base.py] and
    [thread.py]):
    - [executor.map(fn, xs)] submits one task per element of [xs], in
      iteration order, before it returns; the tasks wait in a queue;
    - at most [max_workers] worker threads exist; a worker takes the task at
      the head of the queue and runs it to its end;
    - the iterator that [map] returns yields the results in the order of
      submission and waits for a task that has not ended; when a task has
      raised, asking for its result raises that exception, and the iterator
      then cancels the futures it has not yielded yet: a task still in the
      queue is dropped, one that is running is not interrupted;
    - leaving the [with] block waits until the queue is empty and no task
      runs.

    A task is the delete request for one identifier.  The interleaving of
    the workers and the main thread is a list of [Action]s. *)

(** The [for dr in delete_results] loop of the main thread. *)
Inductive Reader :=
| Iterating                                     (* still asking for results *)
| Exhausted                                     (* the iterator is exhausted *)
| Reraised.                                     (* a task's exception was raised *)

Record Pool := {
  work_queue : list string;                     (* submitted, not taken yet *)
  in_flight : list string;                      (* requests being made *)
  ended : list string;                          (* requests that returned or raised *)
  cancelled : list string;                      (* dropped from the queue *)
  sent : list string;                           (* all requests made so far *)
  futures : list string;                        (* not yet yielded to the main thread *)
  reader : Reader;
  printed : list Event
}.

Inductive Action :=
| Start                                         (* a worker takes the head of the queue *)
| Finish (worker : nat)                         (* the request in flight at this position ends *)
| Next.                                         (* the main thread asks for the next result *)

(** The pool right after [executor.map(delete_task, ids)]. *)
Definition pool_init (ids : list string) : Pool :=
  {| work_queue := ids;
     in_flight := [];
     ended := [];
     cancelled := [];
     sent := [];
     futures := ids;
     reader := Iterating;
     printed := [] |}.

Section Pool.

Context (max_workers : nat) (task : string → option string).

Definition pool_act (a : Action) (p : Pool) : option Pool :=
  match a with
  | Start =>
      match work_queue p with
      | did :: queue =>
          if decide (length (in_flight p) < max_workers) then
            Some {| work_queue := queue;
                    in_flight := in_flight p ++ [did];
                    ended := ended p;
                    cancelled := cancelled p;
                    sent := sent p ++ [did];
                    futures := futures p;
                    reader := reader p;
                    printed := printed p |}
          else None
      | [] => None
      end
  | Finish worker =>
      match in_flight p !! worker with
      | Some did =>
          Some {| work_queue := work_queue p;
                  in_flight := delete worker (in_flight p);
                  ended := did :: ended p;
                  cancelled := cancelled p;
                  sent := sent p;
                  futures := futures p;
                  reader := reader p;
                  printed := printed p |}
      | None => None
      end
  | Next =>
      match reader p, futures p with
      | Iterating, [] =>
          Some {| work_queue := work_queue p;
                  in_flight := in_flight p;
                  ended := ended p;
                  cancelled := cancelled p;
                  sent := sent p;
                  futures := [];
                  reader := Exhausted;
                  printed := printed p |}
      | Iterating, did :: fs =>
          if decide (did ∈ ended p) then
            match task did with
            | Some dr =>
                Some {| work_queue := work_queue p;
                        in_flight := in_flight p;
                        ended := ended p;
                        cancelled := cancelled p;
                        sent := sent p;
                        futures := fs;
                        reader := Iterating;
                        printed := printed p ++ [Print dr] |}
            | None =>
                Some {| work_queue := filter (λ x, x ∉ fs) (work_queue p);
                        in_flight := in_flight p;
                        ended := ended p;
                        cancelled := cancelled p ++ filter (λ x, x ∈ fs) (work_queue p);
                        sent := sent p;
                        futures := fs;
                        reader := Reraised;
                        printed := printed p |}
            end
          else None
      | _, _ => None
      end
  end.

(** A schedule is run action by action; [None] when an action is not
    enabled in the state it is tried in. *)
Fixpoint pool_run (schedule : list Action) (p : Pool) : option Pool :=
  match schedule with
  | [] => Some p
  | a :: schedule' =>
      match pool_act a p with
      | Some p' => pool_run schedule' p'
      | None => None
      end
  end.

(** The [with] block is left: the main thread is through with the results,
    the queue is empty and no request is in flight. *)
Definition pool_done (p : Pool) : bool :=
  match reader p, work_queue p, in_flight p with
  | Iterating, _, _ => false
  | _, [], [] => true
  | _, _, _ => false
  end.

(** What is left to do, counted in actions. *)
Definition pool_measure (p : Pool) : nat :=
  2 * length (work_queue p) + length (in_flight p) + length (futures p)
  + (if reader p is Iterating then 1 else 0).

(** One task at a time: the schedule of a single worker. *)
Definition sequential_schedule (ids : list string) : list Action :=
  flat_map (λ _ : string, [Start; Finish 0; Next]) ids ++ [Next].

End Pool.

(** ** What holds of the pool at every moment

    [ids] are the identifiers submitted, [task] the delete request, which
    answers with a response or raises ([None]). *)

(** The main thread has printed what the results loop of the script prints
    for the results it has been given. *)
Definition reader_agrees (task : string → option string) (ids : list string)
    (p : Pool) : Prop :=
  match reader p with
  | Iterating =>
      ∃ yielded, ids = yielded ++ futures p
                 ∧ report (task <$> yielded) = (printed p, true)
  | Exhausted => report (task <$> ids) = (printed p, true)
  | Reraised => report (task <$> ids) = (printed p, false)
  end.

Definition pool_invariant (max_workers : nat) (task : string → option string)
    (ids : list string) (p : Pool) : Prop :=
  sent p ++ work_queue p ++ cancelled p ≡ₚ ids
  ∧ in_flight p ++ ended p ≡ₚ sent p
  ∧ length (in_flight p) ≤ max_workers
  ∧ (reader p ≠ Reraised → cancelled p = [])
  ∧ (reader p = Reraised → ∃ did, did ∈ ids ∧ task did = None)
  ∧ reader_agrees task ids p.

(** ** Reading a trace *)

(** The batches handed to the dispatcher, in order. *)
Fixpoint batches (tr : list Event) : list (list string) :=
  match tr with
  | [] => []
  | Dispatch _ _ _ ids :: tr' => ids :: batches tr'
  | _ :: tr' => batches tr'
  end.

(** All identifiers handed to the dispatcher, in order. *)
Definition dispatched (tr : list Event) : list string := concat (batches tr).

(** The remote calls of a trace: queries and dispatches. *)
Definition is_remote (e : Event) : bool :=
  match e with
  | Query _ _ _ | Dispatch _ _ _ _ => true
  | _ => false
  end.

(** What a poll that raises leaves in the trace. *)
Definition failed_poll_events (cfg : Config) : list Event :=
  [Query (project_id cfg) (collection_id cfg) batch_size;
   Print retry_message; Sleep 1].

(** The state after [k] polls that raised, and after a poll that returned
    [r] on top of them. *)
Definition failed_poll (cfg : Config) (s : State) : State :=
  emit [Print retry_message; Sleep 1]
    (next_tick (emit [Query (project_id cfg) (collection_id cfg) batch_size] s)).

Definition failed_polls (cfg : Config) (k : nat) (s : State) : State :=
  Nat.iter k (failed_poll cfg) s.

Definition polled (cfg : Config) (k : nat) (r : QueryResult) (s : State) : State :=
  set_matched_documents r
    (next_tick (emit [Query (project_id cfg) (collection_id cfg) batch_size]
                  (failed_polls cfg k s))).

(** The state agrees with its trace: [already_deleted] holds the
    identifiers handed to the dispatcher so far, and none was handed over
    twice. *)
Definition consistent (s : State) : Prop :=
  NoDup (dispatched (trace s))
  ∧ already_deleted s = list_to_set (dispatched (trace s)).

(** The number of queries in a trace. *)
Fixpoint queries (tr : list Event) : nat :=
  match tr with
  | [] => 0
  | Query _ _ _ :: tr' => S (queries tr')
  | _ :: tr' => queries tr'
  end.

(** An event as the script run for [project] and [collection] produces it:
    a query asks for [batch_size] identifiers of that collection, a dispatch
    hands a batch that is not empty and has no duplicates to a pool of
    [max_threads] workers for that collection, and a sleep lasts one second
    or thirty. *)
Definition expected_event (project collection : string) (e : Event) : Prop :=
  match e with
  | Print _ => True
  | Sleep seconds => seconds = 1%Z ∨ seconds = 30%Z
  | Query p c count => p = project ∧ c = collection ∧ count = batch_size
  | Dispatch workers p c ids =>
      workers = max_threads ∧ p = project ∧ c = collection
      ∧ ids ≠ [] ∧ NoDup ids
  end.

(** The pool takes the tasks in the order of submission: the requests made,
    the tasks still queued and the tasks cancelled are the identifiers
    submitted, in that order; a task waits in the queue only while the main
    thread is still asking for results, and then its result has not been
    asked for yet. *)
Definition pool_in_order (ids : list string) (p : Pool) : Prop :=
  ids = sent p ++ work_queue p ++ cancelled p
  ∧ ∀ did, did ∈ work_queue p → reader p = Iterating ∧ did ∈ futures p.

(** ** Worlds and inputs for the examples *)

Definition hit (d : string) : QueryHit := {| document_id := d |}.

Definition argv0 : list string := ["delete_all_documents.py"; "proj"; "coll"].

Definition environ0 : gmap string string :=
  <["WD_URL" := "https://wd.example"]> (<["WD_TOKEN" := "secret"]> ∅).

Definition cfg0 : Config :=
  {| api_url := "https://wd.example"; token := "secret";
     project_id := "proj"; collection_id := "coll" |}.

(** The scenario of the design notes: three documents, seen again before
    the index has caught up, then gone. *)
Definition scenario_world : World :=
  {| discovery_query := λ t _ _ _,
       match t with
       | 0 | 1 => Some {| matching_results := 3; results := [hit "a"; hit "b"; hit "c"] |}
       | _ => Some {| matching_results := 0; results := [] |}
       end;
     discovery_delete_document := λ _ _ _ d, Some ("deleted " +:+ d) |}.

Definition scenario_result : QueryResult :=
  {| matching_results := 3; results := [hit "a"; hit "b"; hit "c"] |}.

(** The state of the scenario after its first pass. *)
Definition scenario_after_first_pass : State :=
  (main_loop scenario_world cfg0 1 initial_state).2.

(** Two documents are visible and every delete request raises. *)
Definition failing_deletes_world : World :=
  {| discovery_query := λ _ _ _ _,
       Some {| matching_results := 2; results := [hit "a"; hit "b"] |};
     discovery_delete_document := λ _ _ _ _, None |}.

(** The query raises four times and returns on the fifth attempt. *)
Definition fifth_attempt_world : World :=
  {| discovery_query := λ t _ _ _,
       match t with
       | 0 | 1 | 2 | 3 => None
       | _ => Some {| matching_results := 1; results := [hit "a"] |}
       end;
     discovery_delete_document := λ _ _ _ d, Some ("deleted " +:+ d) |}.

(** The query always raises. *)
Definition unreachable_world : World :=
  {| discovery_query := λ _ _ _ _, None;
     discovery_delete_document := λ _ _ _ _, None |}.

(** One document is visible and its delete request raises. *)
Definition failing_delete_world : World :=
  {| discovery_query := λ _ _ _ _,
       Some {| matching_results := 1; results := [hit "a"] |};
     discovery_delete_document := λ _ _ _ _, None |}.

(** The query raises twice, then the three documents are seen, and are
    gone at the next poll. *)
Definition flaky_world : World :=
  {| discovery_query := λ t _ _ _,
       match t with
       | 0 | 1 => None
       | 2 => Some scenario_result
       | _ => Some {| matching_results := 0; results := [] |}
       end;
     discovery_delete_document := λ _ _ _ d, Some ("deleted " +:+ d) |}.

(** The index never catches up: the one document stays visible, and its
    delete request returns. *)
Definition lagging_world : World :=
  {| discovery_query := λ _ _ _ _,
       Some {| matching_results := 1; results := [hit "a"] |};
     discovery_delete_document := λ _ _ _ d, Some ("deleted " +:+ d) |}.

(** * Properties *)

(** ** Traces *)

Lemma batches_app (tr1 tr2 : list Event) :
  batches (tr1 ++ tr2) = batches tr1 ++ batches tr2.
Proof.
  induction tr1 as [|e tr1 IH]; [done|].
  destruct e; simpl; by rewrite IH.
Qed.

Lemma dispatched_app (tr1 tr2 : list Event) :
  dispatched (tr1 ++ tr2) = dispatched tr1 ++ dispatched tr2.
Proof. unfold dispatched. by rewrite batches_app, concat_app. Qed.

Lemma batches_prints (lines : list string) (tr : list Event) :
  batches ((Print <$> lines) ++ tr) = batches tr.
Proof. induction lines as [|l lines IH]; done. Qed.

(** The results loop only prints. *)
Lemma report_prints (delete_results : list (option string)) :
  ∃ lines, (report delete_results).1 = Print <$> lines.
Proof.
  induction delete_results as [|[dr|] rest [lines IH]].
  - by exists [].
  - exists (dr :: lines). simpl. destruct (report rest) as [evs ok]. simpl in *.
    by rewrite IH.
  - by exists [].
Qed.

Lemma batches_report (delete_results : list (option string)) (tr : list Event) :
  batches ((report delete_results).1 ++ tr) = batches tr.
Proof.
  destruct (report_prints delete_results) as [lines ->]. apply batches_prints.
Qed.

Lemma dispatched_report (delete_results : list (option string)) :
  dispatched (report delete_results).1 = [].
Proof.
  unfold dispatched.
  by rewrite <- (app_nil_r (report delete_results).1), batches_report.
Qed.

(** The results loop runs to its end exactly when no task has raised, and
    then prints every result. *)
Lemma report_finished (delete_results : list (option string)) :
  (report delete_results).2 = true ↔ Forall is_Some delete_results.
Proof.
  induction delete_results as [|[dr|] rest IH]; simpl.
  - split; [constructor | done].
  - destruct (report rest) as [evs ok]. simpl in *. rewrite IH.
    split; [intros; constructor; eauto | by inversion 1].
  - split; [done | inversion 1 as [|?? Hx]; by destruct Hx].
Qed.

(** ** State updates, field by field *)

Lemma already_deleted_emit (evs : list Event) (s : State) :
  already_deleted (emit evs s) = already_deleted s.
Proof. reflexivity. Qed.

Lemma keep_deleting_emit (evs : list Event) (s : State) :
  keep_deleting (emit evs s) = keep_deleting s.
Proof. reflexivity. Qed.

Lemma matched_documents_emit (evs : list Event) (s : State) :
  matched_documents (emit evs s) = matched_documents s.
Proof. reflexivity. Qed.

Lemma tick_emit (evs : list Event) (s : State) :
  tick (emit evs s) = tick s.
Proof. reflexivity. Qed.

Lemma trace_emit (evs : list Event) (s : State) :
  trace (emit evs s) = trace s ++ evs.
Proof. reflexivity. Qed.

Lemma trace_set_already_deleted (d : gset string) (s : State) :
  trace (set_already_deleted d s) = trace s.
Proof. reflexivity. Qed.

Lemma keep_deleting_set_already_deleted (d : gset string) (s : State) :
  keep_deleting (set_already_deleted d s) = keep_deleting s.
Proof. reflexivity. Qed.

Lemma batches_dispatch (n : nat) (p c : string) (ids : list string) :
  batches [Dispatch n p c ids] = [ids].
Proof. reflexivity. Qed.

Lemma batches_print (line : string) : batches [Print line] = [].
Proof. reflexivity. Qed.

Section ScriptFacts.

Context (W : World) (cfg : Config).

Local Abbreviation query_at t :=
  (discovery_query W t (project_id cfg) (collection_id cfg) batch_size).

(** ** The polling loop *)

Lemma failed_polls_succ (k : nat) (s : State) :
  failed_polls cfg (S k) s = failed_polls cfg k (failed_poll cfg s).
Proof. unfold failed_polls. apply Nat.iter_succ_r. Qed.

Lemma tick_failed_polls (k : nat) (s : State) :
  tick (failed_polls cfg k s) = tick s + k.
Proof.
  induction k as [|k IH]; [simpl; lia|].
  change (failed_polls cfg (S k) s) with (failed_poll cfg (failed_polls cfg k s)).
  simpl. lia.
Qed.

Lemma already_deleted_failed_polls (k : nat) (s : State) :
  already_deleted (failed_polls cfg k s) = already_deleted s.
Proof. induction k as [|k IH]; [done|]. simpl. exact IH. Qed.

Lemma keep_deleting_failed_polls (k : nat) (s : State) :
  keep_deleting (failed_polls cfg k s) = keep_deleting s.
Proof. induction k as [|k IH]; [done|]. simpl. exact IH. Qed.

Lemma batches_failed_polls (k : nat) (s : State) :
  batches (trace (failed_polls cfg k s)) = batches (trace s).
Proof.
  induction k as [|k IH]; [done|]. simpl.
  rewrite <- (assoc_L (++)), batches_app. simpl. rewrite app_nil_r. exact IH.
Qed.

Lemma trace_failed_polls (k : nat) :
  ∀ s, trace (failed_polls cfg k s)
       = trace s ++ concat (replicate k (failed_poll_events cfg)).
Proof.
  induction k as [|k IH]; intros s; [by rewrite app_nil_r|].
  rewrite failed_polls_succ, IH. simpl.
  by rewrite <- !(assoc_L (++)).
Qed.

Lemma query_loop_failed_polls (k : nat) :
  ∀ (a : nat) (rest : list nat) (tries : option nat) (s : State),
    (∀ j, j < k → query_at (tick s + j) = None) →
    query_loop W cfg (seq a k ++ rest) tries s
    = query_loop W cfg rest
        (match k with 0 => tries | S k' => Some (a + k') end)
        (failed_polls cfg k s).
Proof.
  induction k as [|k IH]; intros a rest tries s Hfail; [done|].
  rewrite failed_polls_succ.
  assert (query_loop W cfg (seq a (S k) ++ rest) tries s
          = query_loop W cfg (seq (S a) k ++ rest) (Some a) (failed_poll cfg s)) as ->.
  { specialize (Hfail 0 ltac:(lia)) as H0. rewrite Nat.add_0_r in H0.
    simpl. by rewrite H0. }
  rewrite IH.
  - destruct k; f_equal; f_equal; lia.
  - intros j Hj. simpl. specialize (Hfail (S j) ltac:(lia)).
    by rewrite Nat.add_succ_r in Hfail.
Qed.

(** A poll that returns on one of the first four attempts hands its result
    to the diffing step. *)
Lemma body_polled (k : nat) (r : QueryResult) (s : State) :
  k < max_tries - 1 →
  (∀ j, j < k → query_at (tick s + j) = None) →
  query_at (tick s + k) = Some r →
  body W cfg s = diffing W cfg r (polled cfg k r s).
Proof.
  intros Hk Hfail Hok. unfold body.
  assert (seq 0 max_tries = seq 0 k ++ k :: seq (S k) (max_tries - S k)) as ->.
  { unfold max_tries in *.
    destruct k as [|[|[|[|k]]]]; simpl in Hk; try lia; reflexivity. }
  rewrite query_loop_failed_polls by exact Hfail.
  simpl query_loop. rewrite tick_failed_polls, Hok.
  fold (polled cfg k r s). simpl.
  case_decide; [unfold max_tries in Hk; simpl in Hk; lia | done].
Qed.

(** A poll that returns on the fifth attempt is given up all the same. *)
Lemma body_fifth_attempt (r : QueryResult) (s : State) :
  (∀ j, j < max_tries - 1 → query_at (tick s + j) = None) →
  query_at (tick s + (max_tries - 1)) = Some r →
  body W cfg s
  = (Exited 0, emit [Print giving_up_message] (polled cfg (max_tries - 1) r s)).
Proof.
  intros Hfail Hok. unfold body.
  change (seq 0 max_tries) with (seq 0 (max_tries - 1) ++ [max_tries - 1]).
  rewrite query_loop_failed_polls by exact Hfail.
  unfold polled.
  pose proof (tick_failed_polls (max_tries - 1) s) as Htick.
  remember (failed_polls cfg (max_tries - 1) s) as s4 eqn:Hs4. clear Hs4.
  simpl query_loop. rewrite Htick, Hok. done.
Qed.

Lemma body_exhausted (s : State) :
  (∀ j, j < max_tries → query_at (tick s + j) = None) →
  body W cfg s
  = (Exited 0, emit [Print giving_up_message] (failed_polls cfg max_tries s)).
Proof.
  intros Hfail. unfold body.
  rewrite <- (app_nil_r (seq 0 max_tries)).
  rewrite query_loop_failed_polls by exact Hfail. done.
Qed.

(** The three ways a poll can go. *)
Lemma body_cases (s : State) :
  (∃ k r, k < max_tries - 1 ∧ (∀ j, j < k → query_at (tick s + j) = None)
          ∧ query_at (tick s + k) = Some r
          ∧ body W cfg s = diffing W cfg r (polled cfg k r s))
  ∨ (∃ r, (∀ j, j < max_tries - 1 → query_at (tick s + j) = None)
          ∧ query_at (tick s + (max_tries - 1)) = Some r
          ∧ body W cfg s
            = (Exited 0, emit [Print giving_up_message]
                           (polled cfg (max_tries - 1) r s)))
  ∨ ((∀ j, j < max_tries → query_at (tick s + j) = None)
     ∧ body W cfg s
       = (Exited 0, emit [Print giving_up_message] (failed_polls cfg max_tries s))).
Proof.
  assert (∀ n : nat, n ≤ max_tries →
    (∃ k r, k < n ∧ (∀ j, j < k → query_at (tick s + j) = None)
            ∧ query_at (tick s + k) = Some r)
    ∨ (∀ j, j < n → query_at (tick s + j) = None)) as Hscan.
  { induction n as [|n IH]; intros Hn; [right; intros; lia|].
    destruct IH as [(k & r & ? & ? & ?)|Hfail]; [lia| |].
    - left. exists k, r. split_and!; [lia|done..].
    - destruct (query_at (tick s + n)) as [r|] eqn:Hq.
      + left. exists n, r. split_and!; [lia|done..].
      + right. intros j Hj. destruct (decide (j = n)) as [->|]; [done|].
        apply Hfail. lia. }
  destruct (Hscan max_tries ltac:(lia)) as [(k & r & Hk & Hfail & Hok)|Hfail].
  - destruct (decide (k = max_tries - 1)) as [->|Hne].
    + right. left. exists r. split_and!; [done..|]. by apply body_fifth_attempt.
    + left. exists k, r. split_and!; [lia|done..|]. apply body_polled; [lia|done..].
  - right. right. split; [done|]. by apply body_exhausted.
Qed.

End ScriptFacts.

Section LoopFacts.

Context (W : World) (cfg : Config).

Local Abbreviation query_at t :=
  (discovery_query W t (project_id cfg) (collection_id cfg) batch_size).

(** ** The diffing step, branch by branch *)

Lemma diffing_no_documents (md : QueryResult) (s : State) :
  ¬ (0 < matching_results md)%Z →
  diffing W cfg md s
  = (Running, set_keep_deleting false (emit [Print no_documents_message] s)).
Proof. intros Hcount. unfold diffing. by rewrite decide_False. Qed.

Lemma diffing_settle_wait (md : QueryResult) (s : State) :
  (0 < matching_results md)%Z →
  pending_batch md s = ∅ →
  diffing W cfg md s = (Running, emit [Print waiting_message; Sleep 30] s).
Proof.
  intros Hcount Hempty. unfold diffing.
  rewrite decide_True by done. rewrite Hempty.
  by rewrite decide_True by apply size_empty.
Qed.

Lemma diffing_dispatch (md : QueryResult) (s : State) :
  (0 < matching_results md)%Z →
  pending_batch md s ≠ ∅ →
  let ids := elements (pending_batch md s) in
  let rep := report (delete_task W cfg (tick s) <$> ids) in
  let s1 :=
    set_already_deleted (already_deleted s ∪ pending_batch md s)
      (emit [Dispatch max_threads (project_id cfg) (collection_id cfg) ids] s) in
  diffing W cfg md s
  = if rep.2
    then (Running,
          emit (rep.1 ++ [Print (sent_message (size (already_deleted s1)))]) s1)
    else (Raised, emit rep.1 s1).
Proof.
  intros Hcount Hne. unfold diffing.
  rewrite decide_True by done.
  rewrite decide_False by (by intros ?%size_empty_inv%leibniz_equiv).
  simpl. by destruct (report _) as [evs []].
Qed.

(** What every branch leaves alone or extends. *)
Lemma diffing_frame (md : QueryResult) (s : State) :
  tick (diffing W cfg md s).2 = tick s
  ∧ matched_documents (diffing W cfg md s).2 = matched_documents s
  ∧ already_deleted s ⊆ already_deleted (diffing W cfg md s).2
  ∧ ∃ evs, trace (diffing W cfg md s).2 = trace s ++ evs.
Proof.
  unfold diffing. repeat case_decide; simpl.
  - split_and!; [done..|]. by eexists.
  - destruct (report _) as [evs []]; simpl; (split_and!; [done|done|set_solver|]).
    + rewrite <- (assoc_L (++)). by eexists.
    + rewrite <- (assoc_L (++)). by eexists.
  - split_and!; [done..|]. by eexists.
Qed.

(** The diffing step keeps the state in agreement with its trace. *)
Lemma diffing_consistent (md : QueryResult) (s : State) :
  consistent s → consistent (diffing W cfg md s).2.
Proof.
  intros [Hnodup Hset].
  destruct (decide (0 < matching_results md)%Z) as [Hcount|Hcount];
    [destruct (decide (pending_batch md s = ∅)) as [Hempty|Hne]|].
  - rewrite diffing_settle_wait by done. unfold consistent. simpl.
    rewrite dispatched_app. simpl. by rewrite app_nil_r.
  - rewrite diffing_dispatch by done.
    assert (∀ evs, dispatched
              (((trace s ++ [Dispatch max_threads (project_id cfg) (collection_id cfg)
                               (elements (pending_batch md s))])
                ++ (report (delete_task W cfg (tick s)
                              <$> elements (pending_batch md s))).1 ++ evs))
            = dispatched (trace s) ++ elements (pending_batch md s)
              ++ dispatched evs) as Htrace.
    { intros evs. rewrite !dispatched_app, dispatched_report.
      unfold dispatched at 2. simpl.
      by rewrite app_nil_r, <- (assoc_L (++)). }
    assert (NoDup (dispatched (trace s) ++ elements (pending_batch md s))) as Hnd.
    { apply NoDup_app. split_and!; [done| |apply NoDup_elements].
      intros x Hx Hx'. apply elem_of_elements in Hx'.
      unfold pending_batch in Hx'.
      apply elem_of_difference in Hx' as [_ Hx']. apply Hx'.
      rewrite Hset. by apply elem_of_list_to_set. }
    assert (already_deleted s ∪ pending_batch md s
            = list_to_set (dispatched (trace s) ++ elements (pending_batch md s)))
      as Hunion.
    { rewrite list_to_set_app_L, list_to_set_elements_L. by rewrite Hset. }
    destruct (report _).2; unfold consistent; simpl.
    + rewrite Htrace. simpl. by rewrite app_nil_r.
    + specialize (Htrace []). rewrite !app_nil_r in Htrace. by rewrite Htrace.
  - rewrite diffing_no_documents by done. unfold consistent. simpl.
    rewrite dispatched_app. simpl. by rewrite app_nil_r.
Qed.

(** ** The states of the polling loop *)

Lemma polled_frame (k : nat) (r : QueryResult) (s : State) :
  already_deleted (polled cfg k r s) = already_deleted s
  ∧ keep_deleting (polled cfg k r s) = keep_deleting s
  ∧ matched_documents (polled cfg k r s) = Some r
  ∧ tick (polled cfg k r s) = S (tick s + k)
  ∧ batches (trace (polled cfg k r s)) = batches (trace s)
  ∧ ∃ evs, trace (polled cfg k r s)
           = trace s ++ Query (project_id cfg) (collection_id cfg) batch_size :: evs.
Proof.
  unfold polled. simpl.
  rewrite already_deleted_failed_polls, keep_deleting_failed_polls,
    tick_failed_polls, batches_app, batches_failed_polls. simpl.
  split_and!; [done|done|done|done|by rewrite app_nil_r|].
  rewrite trace_failed_polls, <- (assoc_L (++)).
  destruct k as [|k]; simpl; by eexists.
Qed.

End LoopFacts.

Section RunFacts.

Context (W : World) (cfg : Config).

Local Abbreviation query_at t :=
  (discovery_query W t (project_id cfg) (collection_id cfg) batch_size).

(** ** One pass *)

Lemma consistent_frame (s s' : State) :
  already_deleted s' = already_deleted s →
  batches (trace s') = batches (trace s) →
  consistent s → consistent s'.
Proof.
  unfold consistent, dispatched. intros -> ->. done.
Qed.

Lemma failed_polls_consistent (k : nat) (s : State) :
  consistent s → consistent (failed_polls cfg k s).
Proof.
  apply consistent_frame;
    [apply already_deleted_failed_polls | apply batches_failed_polls].
Qed.

Lemma polled_consistent (k : nat) (r : QueryResult) (s : State) :
  consistent s → consistent (polled cfg k r s).
Proof.
  destruct (polled_frame cfg k r s) as (? & _ & _ & _ & ? & _).
  by apply consistent_frame.
Qed.

Lemma emit_prints_consistent (line : string) (s : State) :
  consistent s → consistent (emit [Print line] s).
Proof.
  apply consistent_frame; [done|]. simpl. rewrite batches_app. simpl.
  by rewrite app_nil_r.
Qed.

Lemma body_consistent (s : State) :
  consistent s → consistent (body W cfg s).2.
Proof.
  intros Hs.
  destruct (body_cases W cfg s)
    as [(k & r & _ & _ & _ & ->)|[(r & _ & _ & ->)|[_ ->]]].
  - by apply diffing_consistent, polled_consistent.
  - by apply emit_prints_consistent, polled_consistent.
  - by apply emit_prints_consistent, failed_polls_consistent.
Qed.

Lemma body_monotone (s : State) :
  already_deleted s ⊆ already_deleted (body W cfg s).2.
Proof.
  destruct (body_cases W cfg s)
    as [(k & r & _ & _ & _ & ->)|[(r & _ & _ & ->)|[_ ->]]].
  - destruct (diffing_frame W cfg r (polled cfg k r s)) as (_ & _ & Hsub & _).
    destruct (polled_frame cfg k r s) as (Heq & _). by rewrite Heq in Hsub.
  - destruct (polled_frame cfg (max_tries - 1) r s) as (Heq & _).
    cbn [snd]. by rewrite already_deleted_emit, Heq.
  - cbn [snd]. by rewrite already_deleted_emit, already_deleted_failed_polls.
Qed.

(** Every pass starts with a query. *)
Lemma body_trace (s : State) :
  ∃ evs, trace (body W cfg s).2
         = trace s ++ Query (project_id cfg) (collection_id cfg) batch_size :: evs.
Proof.
  destruct (body_cases W cfg s)
    as [(k & r & _ & _ & _ & ->)|[(r & _ & _ & ->)|[_ ->]]].
  - destruct (diffing_frame W cfg r (polled cfg k r s)) as (_ & _ & _ & evs & ->).
    destruct (polled_frame cfg k r s) as (_ & _ & _ & _ & _ & evs' & ->).
    rewrite <- (assoc_L (++)). by eexists.
  - destruct (polled_frame cfg (max_tries - 1) r s)
      as (_ & _ & _ & _ & _ & evs' & Htr).
    cbn [snd]. rewrite trace_emit, Htr, <- (assoc_L (++)). by eexists.
  - cbn [snd]. rewrite trace_emit, trace_failed_polls, <- (assoc_L (++)).
    by eexists.
Qed.

(** ** The loop *)

Lemma main_loop_stopped (fuel : nat) (s : State) :
  keep_deleting s = false → main_loop W cfg fuel s = (Completed, s).
Proof. intros Hkeep. destruct fuel; simpl; by rewrite Hkeep. Qed.

Lemma main_loop_pass (fuel : nat) (s : State) :
  keep_deleting s = true →
  main_loop W cfg (S fuel) s
  = match body W cfg s with
    | (Running, s') => main_loop W cfg fuel s'
    | stopped => stopped
    end.
Proof. intros Hkeep. simpl. by rewrite Hkeep. Qed.

Lemma main_loop_add (n m : nat) :
  ∀ s, main_loop W cfg (n + m) s
       = match main_loop W cfg n s with
         | (Running, s') => main_loop W cfg m s'
         | stopped => stopped
         end.
Proof.
  induction n as [|n IH]; intros s.
  - simpl. destruct (keep_deleting s) eqn:Hkeep; [done|].
    by apply main_loop_stopped.
  - simpl. destruct (keep_deleting s); [|done].
    destruct (body W cfg s) as [[] s']; auto.
Qed.

Lemma main_loop_consistent (fuel : nat) :
  ∀ s, consistent s → consistent (main_loop W cfg fuel s).2.
Proof.
  induction fuel as [|fuel IH]; intros s Hs; simpl.
  - by destruct (keep_deleting s).
  - destruct (keep_deleting s); [|done].
    pose proof (body_consistent s Hs) as Hbody.
    destruct (body W cfg s) as [[] s']; simpl in *; auto.
Qed.

Lemma main_loop_monotone (fuel : nat) :
  ∀ s, already_deleted s ⊆ already_deleted (main_loop W cfg fuel s).2.
Proof.
  induction fuel as [|fuel IH]; intros s; simpl.
  - by destruct (keep_deleting s).
  - destruct (keep_deleting s); [|done].
    pose proof (body_monotone s) as Hbody.
    destruct (body W cfg s) as [[] s']; simpl in *; auto.
    etrans; [exact Hbody | apply IH].
Qed.

Lemma main_loop_trace (fuel : nat) :
  ∀ s, ∃ evs, trace (main_loop W cfg fuel s).2 = trace s ++ evs.
Proof.
  induction fuel as [|fuel IH]; intros s; simpl.
  - exists []. rewrite app_nil_r. by destruct (keep_deleting s).
  - destruct (keep_deleting s); [|exists []; by rewrite app_nil_r].
    destruct (body_trace s) as [evs Hbody].
    destruct (body W cfg s) as [[] s']; simpl in *;
      try (rewrite Hbody; by eexists).
    destruct (IH s') as [evs' ->]. rewrite Hbody, <- (assoc_L (++)). by eexists.
Qed.

Lemma initial_state_consistent : consistent initial_state.
Proof. split; [constructor | done]. Qed.

End RunFacts.

(** ** Start-up: missing environment values *)

(** C8, as amended.  If [WD_URL] or [WD_TOKEN] is absent from the
    environment, the script prints one diagnostic line and ends through
    [sys.exit()] without an argument, that is with exit status 0; the line is
    the only event of the run, so no query and no delete request is issued.
    With both arguments given, the line names the first missing variable;
    with fewer, it is the usage line. *)
Theorem missing_environment_exits (fuel : nat) (W : World) (argv : list string)
    (environ : gmap string string) :
  environ !! "WD_URL" = None ∨ environ !! "WD_TOKEN" = None →
  ∃ line,
    script fuel W argv environ = (Exited 0, [Print line])
    ∧ exit_status (script fuel W argv environ).1 = Some 0%Z
    ∧ filter (λ e, is_remote e = true) (script fuel W argv environ).2 = []
    ∧ line = (if decide (length argv < 3) then usage_message
              else if environ !! "WD_URL" is None then no_url_message
                   else no_token_message).
Proof.
  intros Hmissing. unfold script, startup.
  destruct (decide (length argv < 3)) as [Hargs|Hargs].
  { by eexists. }
  destruct (environ !! "WD_URL") as [url|] eqn:Hurl.
  - destruct Hmissing as [|Htoken]; [done|]. rewrite Htoken. by eexists.
  - by eexists.
Qed.

Lemma missing_environment_exits_witness :
  ∃ line,
    script 7 scenario_world argv0 (<["WD_URL" := "https://wd.example"]> ∅)
    = (Exited 0, [Print line])
    ∧ exit_status
        (script 7 scenario_world argv0 (<["WD_URL" := "https://wd.example"]> ∅)).1
      = Some 0%Z
    ∧ filter (λ e, is_remote e = true)
        (script 7 scenario_world argv0 (<["WD_URL" := "https://wd.example"]> ∅)).2
      = []
    ∧ line = (if decide (length argv0 < 3) then usage_message
              else if (<["WD_URL" := "https://wd.example"]> ∅ : gmap string string)
                        !! "WD_URL" is None
                   then no_url_message else no_token_message).
Proof.
  apply (missing_environment_exits 7 scenario_world argv0
           (<["WD_URL" := "https://wd.example"]> ∅)).
  right. reflexivity.
Defined.

(** C8, as stated, fails: with [WD_URL] absent the exit status is zero. *)
Lemma missing_url_exit_status_is_zero :
  (<["WD_TOKEN" := "secret"]> ∅ : gmap string string) !! "WD_URL" = None
  ∧ ¬ ∃ status,
        exit_status
          (script 7 scenario_world argv0 (<["WD_TOKEN" := "secret"]> ∅)).1
        = Some status
        ∧ status ≠ 0%Z.
Proof.
  split; [reflexivity|].
  intros (status & Hstatus & Hnonzero).
  vm_compute in Hstatus. congruence.
Qed.

(** ** Polling: the fifth attempt *)

(** C2: the code at the failing input.  The query raises four times and
    returns a result with one match on the fifth attempt; the script prints
    the giving-up line and exits: the diffing step is not reached and nothing
    is dispatched. *)
Theorem fifth_attempt_success_is_given_up :
  discovery_query fifth_attempt_world 4 "proj" "coll" batch_size
  = Some {| matching_results := 1; results := [hit "a"] |}
  ∧ script 3 fifth_attempt_world argv0 environ0
    = (Exited 0,
       concat (replicate 4 (failed_poll_events cfg0))
       ++ [Query "proj" "coll" batch_size; Print giving_up_message]).
Proof. split; vm_compute; reflexivity. Qed.

Section Claims.

Context (W : World) (cfg : Config).

Local Abbreviation query_at t :=
  (discovery_query W t (project_id cfg) (collection_id cfg) batch_size).

(** ** Polling: retry exhaustion *)

(** C3.  When the query raises five times in a row within one pass, the
    script prints the giving-up line and exits.  The pass has made the five
    queries, each followed by the retry line and a sleep of one second, and
    nothing else: no batch is dispatched and [already_deleted] is as before.
    The result is the same for every number of passes allowed, so no later
    pass takes place. *)
Theorem retry_exhaustion_aborts (fuel : nat) (s : State) :
  keep_deleting s = true →
  (∀ j, j < max_tries → query_at (tick s + j) = None) →
  ∃ s',
    main_loop W cfg (S fuel) s = (Exited 0, s')
    ∧ trace s' = trace s ++ concat (replicate max_tries (failed_poll_events cfg))
                 ++ [Print giving_up_message]
    ∧ batches (trace s') = batches (trace s)
    ∧ already_deleted s' = already_deleted s.
Proof.
  intros Hkeep Hfail. eexists. split_and!.
  - rewrite main_loop_pass by done. by rewrite body_exhausted.
  - by rewrite trace_emit, trace_failed_polls, <- (assoc_L (++)).
  - rewrite trace_emit, batches_app, batches_failed_polls. simpl.
    by rewrite app_nil_r.
  - by rewrite already_deleted_emit, already_deleted_failed_polls.
Qed.

End Claims.

Lemma retry_exhaustion_aborts_witness :
  ∃ s',
    main_loop unreachable_world cfg0 (S 3) initial_state = (Exited 0, s')
    ∧ trace s' = trace initial_state
                 ++ concat (replicate max_tries (failed_poll_events cfg0))
                 ++ [Print giving_up_message]
    ∧ batches (trace s') = batches (trace initial_state)
    ∧ already_deleted s' = already_deleted initial_state.
Proof.
  apply (retry_exhaustion_aborts unreachable_world cfg0 3 initial_state).
  - reflexivity.
  - intros j _. reflexivity.
Defined.

Section DiffingFacts.

Context (W : World) (cfg : Config).

Local Abbreviation query_at t :=
  (discovery_query W t (project_id cfg) (collection_id cfg) batch_size).

(** The diffing step never ends the script by itself: it falls through or
    lets an exception of a delete task escape. *)
Lemma diffing_outcome (md : QueryResult) (s : State) :
  (diffing W cfg md s).1 = Running ∨ (diffing W cfg md s).1 = Raised.
Proof.
  unfold diffing. repeat case_decide; simpl; auto.
  destruct (report _) as [evs []]; simpl; auto.
Qed.

Lemma diffing_keep_deleting (md : QueryResult) (s : State) :
  keep_deleting (diffing W cfg md s).2
  = if decide (0 < matching_results md)%Z then keep_deleting s else false.
Proof.
  unfold diffing. repeat case_decide; simpl; try done.
  by destruct (report _) as [evs []].
Qed.

(** The batch a diffing step dispatches, if any, is the difference. *)
Lemma diffing_batches (md : QueryResult) (s : State) :
  batches (trace (diffing W cfg md s).2)
  = batches (trace s)
    ++ (if decide ((0 < matching_results md)%Z ∧ pending_batch md s ≠ ∅)
        then [elements (pending_batch md s)] else []).
Proof.
  destruct (decide (0 < matching_results md)%Z) as [Hcount|Hcount];
    [destruct (decide (pending_batch md s = ∅)) as [Hempty|Hne]|].
  - rewrite diffing_settle_wait by done.
    rewrite decide_False by (intros [_ ?]; done).
    cbn [snd]. rewrite trace_emit, batches_app. done.
  - rewrite diffing_dispatch by done. rewrite decide_True by done.
    destruct (report _).2; cbn [snd]; rewrite trace_emit, batches_app.
    + rewrite batches_report. simpl. rewrite batches_app. simpl.
      by rewrite !app_nil_r.
    + rewrite <- (app_nil_r (report _).1), batches_report. simpl.
      rewrite batches_app. simpl. by rewrite !app_nil_r.
  - rewrite diffing_no_documents by done.
    rewrite decide_False by (intros [? _]; done).
    cbn [snd]. simpl. rewrite batches_app. done.
Qed.

Lemma pending_batch_polled (md r : QueryResult) (k : nat) (s : State) :
  pending_batch md (polled cfg k r s) = pending_batch md s.
Proof.
  unfold pending_batch.
  destruct (polled_frame cfg k r s) as (-> & _). done.
Qed.

(** A pass that is made starts with a query. *)
Lemma main_loop_first_query (fuel : nat) (s : State) :
  keep_deleting s = true →
  ∃ evs, trace (main_loop W cfg (S fuel) s).2
         = trace s ++ Query (project_id cfg) (collection_id cfg) batch_size :: evs.
Proof.
  intros Hkeep. rewrite main_loop_pass by done.
  destruct (body_trace W cfg s) as [evs Hbody].
  destruct (body W cfg s) as [[] s']; simpl in *; try (by eexists).
  destruct (main_loop_trace W cfg fuel s') as [evs' ->].
  rewrite Hbody, <- (assoc_L (++)). by eexists.
Qed.

End DiffingFacts.

Section Convergence.

Context (W : World) (cfg : Config).

Local Abbreviation query_at t :=
  (discovery_query W t (project_id cfg) (collection_id cfg) batch_size).

(** ** The settle wait *)

(** C7.  A pass whose poll returns a result with a positive count and an
    empty difference prints the waiting line and sleeps 30 seconds; it
    dispatches no batch, leaves [already_deleted] as it was and keeps the
    loop going; the next event of the run after the sleep is the query of the
    next pass. *)
Theorem settle_wait_then_repoll (fuel k : nat) (md : QueryResult) (s : State) :
  keep_deleting s = true →
  k < max_tries - 1 →
  (∀ j, j < k → query_at (tick s + j) = None) →
  query_at (tick s + k) = Some md →
  (0 < matching_results md)%Z →
  pending_batch md s = ∅ →
  ∃ s',
    body W cfg s = (Running, s')
    ∧ trace s' = trace (polled cfg k md s) ++ [Print waiting_message; Sleep 30]
    ∧ batches (trace s') = batches (trace s)
    ∧ already_deleted s' = already_deleted s
    ∧ keep_deleting s' = true
    ∧ ∃ evs, trace (main_loop W cfg (S (S fuel)) s).2
             = trace s'
               ++ Query (project_id cfg) (collection_id cfg) batch_size :: evs.
Proof.
  intros Hkeep Hk Hfail Hok Hcount Hempty.
  destruct (polled_frame cfg k md s) as (Hdel & Hkeep' & _ & _ & Hbatches & _).
  assert (body W cfg s
          = (Running, emit [Print waiting_message; Sleep 30] (polled cfg k md s)))
    as Hbody.
  { rewrite (body_polled W cfg k md s) by done.
    apply diffing_settle_wait; [done|]. by rewrite pending_batch_polled. }
  eexists. split_and!.
  - exact Hbody.
  - by rewrite trace_emit.
  - rewrite trace_emit, batches_app, Hbatches. simpl. by rewrite app_nil_r.
  - by rewrite already_deleted_emit.
  - by rewrite keep_deleting_emit, Hkeep'.
  - rewrite main_loop_pass, Hbody by done.
    apply main_loop_first_query. by rewrite keep_deleting_emit, Hkeep'.
Qed.

(** ** What decides the end of the run *)

(** C10.  With a count of zero the diffing step prints the no-documents
    line and clears [keep_deleting], whatever the results list holds: two
    results with a count of zero are treated alike, nothing is dispatched,
    and the loop then ends.  With a positive count and an empty results list
    the step takes the settle wait and the loop goes on.  Starting with
    [keep_deleting] set, the flag is cleared exactly when the count is not
    positive. *)
Theorem end_decided_by_count (md : QueryResult) (s : State) :
  (matching_results md = 0%Z →
     diffing W cfg md s
     = (Running, set_keep_deleting false (emit [Print no_documents_message] s))
     ∧ (∀ md', matching_results md' = 0%Z →
               diffing W cfg md' s = diffing W cfg md s)
     ∧ batches (trace (diffing W cfg md s).2) = batches (trace s)
     ∧ already_deleted (diffing W cfg md s).2 = already_deleted s
     ∧ ∀ fuel, main_loop W cfg fuel (diffing W cfg md s).2
               = (Completed, (diffing W cfg md s).2))
  ∧ ((0 < matching_results md)%Z → results md = [] →
     diffing W cfg md s = (Running, emit [Print waiting_message; Sleep 30] s))
  ∧ (keep_deleting s = true →
     (keep_deleting (diffing W cfg md s).2 = false
      ↔ ¬ (0 < matching_results md)%Z)).
Proof.
  split_and!.
  - intros Hzero.
    assert (∀ md', matching_results md' = 0%Z →
              diffing W cfg md' s
              = (Running,
                 set_keep_deleting false (emit [Print no_documents_message] s)))
      as Hdone.
    { intros md' Hmd'. apply diffing_no_documents. lia. }
    rewrite (Hdone md Hzero). split_and!.
    + done.
    + intros md' Hmd'. by apply Hdone.
    + cbn [snd]. simpl. rewrite batches_app. simpl. by rewrite app_nil_r.
    + done.
    + intros fuel. by apply main_loop_stopped.
  - intros Hcount Hresults. apply diffing_settle_wait; [done|].
    unfold pending_batch. rewrite Hresults.
    apply subseteq_empty_difference_L, empty_subseteq.
  - intros Hkeep. rewrite diffing_keep_deleting.
    case_decide; [rewrite Hkeep|]; naive_solver.
Qed.

(** ** Termination *)

(** C1.  The loop ends in the regular way, having printed the no-documents
    line, only after a poll of the run has returned a result whose count is
    not positive, zero for a count that is not negative.  For a result with a
    positive count the diffing step leaves [keep_deleting] as it is and does
    not end the loop: it falls through to the next pass, or an exception of a
    delete task escapes from it; it falls through whenever every delete task
    of the batch returns, and in particular when every identifier of the
    result is already in [already_deleted]. *)
Theorem ends_only_on_zero_matches :
  (∀ fuel s s',
     keep_deleting s = true →
     main_loop W cfg fuel s = (Completed, s') →
     ∃ t md,
       tick s ≤ t < tick s'
       ∧ query_at t = Some md
       ∧ matched_documents s' = Some md
       ∧ ¬ (0 < matching_results md)%Z
       ∧ ((0 ≤ matching_results md)%Z → matching_results md = 0%Z)
       ∧ last (trace s') = Some (Print no_documents_message))
  ∧ (∀ md s,
       (0 < matching_results md)%Z →
       keep_deleting (diffing W cfg md s).2 = keep_deleting s
       ∧ ((diffing W cfg md s).1 = Running ∨ (diffing W cfg md s).1 = Raised)
       ∧ (Forall is_Some
            (delete_task W cfg (tick s) <$> elements (pending_batch md s)) →
          (diffing W cfg md s).1 = Running)
       ∧ (list_to_set (document_id <$> results md) ⊆ already_deleted s →
          diffing W cfg md s
          = (Running, emit [Print waiting_message; Sleep 30] s)))
  ∧ (∀ fuel s s',
       keep_deleting s = true →
       body W cfg s = (Running, s') →
       main_loop W cfg (S fuel) s = main_loop W cfg fuel s').
Proof.
  split_and!.
  - induction fuel as [|fuel IH]; intros s s' Hkeep Hrun.
    { simpl in Hrun. by rewrite Hkeep in Hrun. }
    rewrite main_loop_pass in Hrun by done.
    destruct (body_cases W cfg s)
      as [(k & r & Hk & Hfail & Hok & Hbody)|[(r & _ & _ & Hbody)|[_ Hbody]]];
      rewrite Hbody in Hrun; [|done..].
    destruct (polled_frame cfg k r s) as (_ & Hkeep1 & Hmd1 & Htick1 & _).
    destruct (diffing_frame W cfg r (polled cfg k r s))
      as (Htick2 & Hmd2 & _ & _).
    pose proof (diffing_keep_deleting W cfg r (polled cfg k r s)) as Hkeep2.
    pose proof (diffing_outcome W cfg r (polled cfg k r s)) as Hout.
    destruct (diffing W cfg r (polled cfg k r s)) as [o s1] eqn:Hdiff.
    simpl in *. destruct Hout as [-> | ->]; [|done].
    destruct (decide (0 < matching_results r)%Z) as [Hcount|Hcount].
    + destruct (IH s1 s') as (t & md & Ht & ?); [congruence|done|].
      exists t, md. split; [lia|done].
    + rewrite main_loop_stopped in Hrun by done.
      injection Hrun as <-.
      exists (tick s + k), r. split_and!; [lia|lia|done|congruence|done|lia|].
      rewrite diffing_no_documents in Hdiff by done.
      injection Hdiff as <-. simpl. apply last_snoc.
  - intros md s Hcount. split_and!.
    + rewrite diffing_keep_deleting. by rewrite decide_True.
    + apply diffing_outcome.
    + intros Hok.
      destruct (decide (pending_batch md s = ∅)) as [Hempty|Hne].
      * by rewrite diffing_settle_wait.
      * rewrite diffing_dispatch by done.
        apply report_finished in Hok. by rewrite Hok.
    + intros Hseen. apply diffing_settle_wait; [done|].
      unfold pending_batch. by apply subseteq_empty_difference_L.
  - intros fuel s s' Hkeep Hbody. by rewrite main_loop_pass, Hbody.
Qed.

End Convergence.

Lemma settle_wait_then_repoll_witness :
  ∃ s',
    body scenario_world cfg0 scenario_after_first_pass = (Running, s')
    ∧ trace s' = trace (polled cfg0 0 scenario_result scenario_after_first_pass)
                 ++ [Print waiting_message; Sleep 30]
    ∧ batches (trace s') = batches (trace scenario_after_first_pass)
    ∧ already_deleted s' = already_deleted scenario_after_first_pass
    ∧ keep_deleting s' = true
    ∧ ∃ evs, trace (main_loop scenario_world cfg0 (S (S 0))
                      scenario_after_first_pass).2
             = trace s'
               ++ Query (project_id cfg0) (collection_id cfg0) batch_size :: evs.
Proof.
  apply (settle_wait_then_repoll scenario_world cfg0 0 0 scenario_result
           scenario_after_first_pass).
  - vm_compute. reflexivity.
  - unfold max_tries. lia.
  - intros j Hj. lia.
  - vm_compute. reflexivity.
  - simpl. lia.
  - vm_compute. reflexivity.
Defined.

Lemma end_decided_by_count_witness :
  diffing scenario_world cfg0
    {| matching_results := 0; results := [hit "x"] |} initial_state
  = (Running,
     set_keep_deleting false (emit [Print no_documents_message] initial_state))
  ∧ diffing scenario_world cfg0
      {| matching_results := 2; results := [] |} initial_state
    = (Running, emit [Print waiting_message; Sleep 30] initial_state).
Proof.
  split.
  - destruct (end_decided_by_count scenario_world cfg0
                {| matching_results := 0; results := [hit "x"] |} initial_state)
      as (Hzero & _).
    destruct (Hzero eq_refl) as (Hdone & _). exact Hdone.
  - destruct (end_decided_by_count scenario_world cfg0
                {| matching_results := 2; results := [] |} initial_state)
      as (_ & Hempty & _).
    apply Hempty; reflexivity.
Defined.

Lemma ends_only_on_zero_matches_witness :
  ∃ t md,
    tick initial_state ≤ t
    < tick (main_loop scenario_world cfg0 5 initial_state).2
    ∧ discovery_query scenario_world t (project_id cfg0) (collection_id cfg0)
        batch_size = Some md
    ∧ matched_documents (main_loop scenario_world cfg0 5 initial_state).2
      = Some md
    ∧ ¬ (0 < matching_results md)%Z
    ∧ ((0 ≤ matching_results md)%Z → matching_results md = 0%Z)
    ∧ last (trace (main_loop scenario_world cfg0 5 initial_state).2)
      = Some (Print no_documents_message).
Proof.
  apply (proj1 (ends_only_on_zero_matches scenario_world cfg0) 5 initial_state).
  - reflexivity.
  - vm_compute. reflexivity.
Defined.

(** ** The dispatched set *)

Lemma list_to_set_concat (bs : list (list string)) :
  (list_to_set (concat bs) : gset string) = ⋃ (list_to_set <$> bs).
Proof.
  induction bs as [|b bs IH]; [done|].
  simpl. by rewrite list_to_set_app_L, IH.
Qed.

Section DispatchedSet.

Context (W : World) (cfg : Config).

Local Abbreviation query_at t :=
  (discovery_query W t (project_id cfg) (collection_id cfg) batch_size).

(** The batches of one pass: at most one, and disjoint from what was
    dispatched before. *)
Lemma body_batches (s : State) :
  ∃ bs, batches (trace (body W cfg s).2) = batches (trace s) ++ bs
        ∧ length bs ≤ 1
        ∧ ∀ ids x, ids ∈ bs → x ∈ ids → x ∉ already_deleted s.
Proof.
  destruct (body_cases W cfg s)
    as [(k & r & _ & _ & _ & ->)|[(r & _ & _ & ->)|[_ ->]]].
  - destruct (polled_frame cfg k r s) as (Hdel & _ & _ & _ & Hbatches & _).
    rewrite diffing_batches, Hbatches. eexists. split; [done|].
    case_decide; simpl; (split; [lia|]); intros ids x Hids Hx.
    + apply list_elem_of_singleton in Hids as ->.
      apply elem_of_elements in Hx. rewrite pending_batch_polled in Hx.
      unfold pending_batch in Hx. by apply elem_of_difference in Hx as [_ ?].
    + by apply elem_of_nil in Hids.
  - destruct (polled_frame cfg (max_tries - 1) r s)
      as (_ & _ & _ & _ & Hbatches & _).
    exists []. cbn [snd]. rewrite trace_emit, batches_app, Hbatches.
    split_and!; [done|simpl; lia|]. intros ids x Hids. by apply elem_of_nil in Hids.
  - exists []. cbn [snd]. rewrite trace_emit, batches_app, batches_failed_polls.
    split_and!; [done|simpl; lia|]. intros ids x Hids. by apply elem_of_nil in Hids.
Qed.

(** C5.  The difference holds no identifier of [already_deleted]; the batch
    a pass hands to the dispatcher, if any, holds no identifier that was in
    [already_deleted] when the pass began; and over a whole run, of any
    length and against any service, no identifier is handed to the dispatcher
    twice. *)
Theorem no_redundant_dispatch :
  (∀ md s x, x ∈ pending_batch md s → x ∉ already_deleted s)
  ∧ (∀ md s,
       batches (trace (diffing W cfg md s).2)
       = batches (trace s)
         ++ (if decide ((0 < matching_results md)%Z ∧ pending_batch md s ≠ ∅)
             then [elements (pending_batch md s)] else []))
  ∧ (∀ s, ∃ bs,
       batches (trace (body W cfg s).2) = batches (trace s) ++ bs
       ∧ length bs ≤ 1
       ∧ ∀ ids x, ids ∈ bs → x ∈ ids → x ∉ already_deleted s)
  ∧ (∀ fuel, NoDup (dispatched (trace (main_loop W cfg fuel initial_state).2))).
Proof.
  split_and!.
  - intros md s x Hx. unfold pending_batch in Hx.
    by apply elem_of_difference in Hx as [_ ?].
  - apply diffing_batches.
  - apply body_batches.
  - intros fuel.
    by destruct (main_loop_consistent W cfg fuel initial_state
                   initial_state_consistent).
Qed.

(** C6.  After any number of passes, against any service, [already_deleted]
    is the union of the batches dispatched so far; a dispatching step adds
    the whole batch, whatever the delete requests answer; and the set only
    grows, from pass to pass and over the run. *)
Theorem dispatched_set_is_union :
  (∀ fuel,
     already_deleted (main_loop W cfg fuel initial_state).2
     = ⋃ (list_to_set <$> batches (trace (main_loop W cfg fuel initial_state).2)))
  ∧ (∀ md s,
       (0 < matching_results md)%Z →
       already_deleted (diffing W cfg md s).2
       = already_deleted s ∪ pending_batch md s)
  ∧ (∀ s, already_deleted s ⊆ already_deleted (body W cfg s).2)
  ∧ (∀ fuel more,
       already_deleted (main_loop W cfg fuel initial_state).2
       ⊆ already_deleted (main_loop W cfg (fuel + more) initial_state).2).
Proof.
  split_and!.
  - intros fuel.
    destruct (main_loop_consistent W cfg fuel initial_state
                initial_state_consistent) as [_ ->].
    apply list_to_set_concat.
  - intros md s Hcount.
    destruct (decide (pending_batch md s = ∅)) as [Hempty|Hne].
    + rewrite diffing_settle_wait by done. rewrite Hempty.
      cbn [snd]. by rewrite already_deleted_emit, (right_id_L ∅ (∪)).
    + rewrite diffing_dispatch by done. by destruct (report _).2.
  - apply body_monotone.
  - intros fuel more. rewrite main_loop_add.
    destruct (main_loop W cfg fuel initial_state) as [[] s'];
      simpl; try done. apply main_loop_monotone.
Qed.

(** ** A delete request that fails *)

(** C4, as amended.  A pass that dispatches a batch adds every identifier of
    the batch to [already_deleted] and dispatches the batch once, whatever
    the delete requests answer.  When every delete task returns, the results
    and the count line are printed and the loop goes on with the next pass.
    When one raises, the results before it are printed, the exception
    escapes, and the run ends there for every number of passes allowed: no
    later pass, and so no retry, takes place. *)
Theorem failed_delete_ends_run (fuel k : nat) (md : QueryResult) (s : State) :
  keep_deleting s = true →
  k < max_tries - 1 →
  (∀ j, j < k → query_at (tick s + j) = None) →
  query_at (tick s + k) = Some md →
  (0 < matching_results md)%Z →
  pending_batch md s ≠ ∅ →
  let ids := elements (pending_batch md s) in
  let outcomes := delete_task W cfg (S (tick s + k)) <$> ids in
  ∃ s',
    already_deleted s' = already_deleted s ∪ pending_batch md s
    ∧ batches (trace s') = batches (trace s) ++ [ids]
    ∧ (Forall is_Some outcomes →
       body W cfg s = (Running, s')
       ∧ main_loop W cfg (S fuel) s = main_loop W cfg fuel s'
       ∧ keep_deleting s' = true
       ∧ trace s'
         = trace (polled cfg k md s)
           ++ [Dispatch max_threads (project_id cfg) (collection_id cfg) ids]
           ++ (report outcomes).1
           ++ [Print (sent_message (size (already_deleted s')))])
    ∧ (¬ Forall is_Some outcomes →
       body W cfg s = (Raised, s')
       ∧ main_loop W cfg (S fuel) s = (Raised, s')
       ∧ trace s'
         = trace (polled cfg k md s)
           ++ [Dispatch max_threads (project_id cfg) (collection_id cfg) ids]
           ++ (report outcomes).1).
Proof.
  intros Hkeep Hk Hfail Hok Hcount Hne ids outcomes.
  destruct (polled_frame cfg k md s)
    as (Hdel & Hkeep' & _ & Htick & Hbatches & _).
  pose proof (body_polled W cfg k md s Hk Hfail Hok) as Hbody.
  rewrite diffing_dispatch in Hbody
    by (by rewrite ?pending_batch_polled).
  rewrite pending_batch_polled, Htick, Hdel in Hbody.
  fold ids in Hbody. fold outcomes in Hbody.
  pose proof (report_finished outcomes) as Hfin.
  exists (body W cfg s).2.
  destruct (report outcomes).2 eqn:Hrep; rewrite Hbody; cbn [snd].
  - split_and!.
    + done.
    + rewrite trace_emit, trace_set_already_deleted, trace_emit.
      rewrite batches_app, batches_report, batches_app, Hbatches.
      by rewrite batches_dispatch, batches_print, app_nil_r.
    + intros _. split_and!; [done| | |].
      * rewrite main_loop_pass by done. by rewrite Hbody.
      * by rewrite keep_deleting_emit, keep_deleting_set_already_deleted,
          keep_deleting_emit, Hkeep'.
      * rewrite trace_emit, trace_set_already_deleted, trace_emit.
        by rewrite <- !(assoc_L (++)).
    + intros Hnot. destruct Hnot. by apply Hfin.
  - split_and!.
    + done.
    + rewrite trace_emit, trace_set_already_deleted, trace_emit.
      rewrite <- (app_nil_r (report outcomes).1).
      rewrite batches_app, batches_report, batches_app, Hbatches.
      by rewrite batches_dispatch, app_nil_r.
    + intros Hall. apply Hfin in Hall. done.
    + intros _. split_and!; [done| |].
      * rewrite main_loop_pass by done. by rewrite Hbody.
      * rewrite trace_emit, trace_set_already_deleted, trace_emit.
        by rewrite <- !(assoc_L (++)).
Qed.

End DispatchedSet.

Lemma failed_delete_ends_run_witness :
  let ids := elements
               (pending_batch {| matching_results := 1; results := [hit "a"] |}
                  initial_state) in
  let outcomes := delete_task failing_delete_world cfg0 (S (0 + 0)) <$> ids in
  ∃ s',
    already_deleted s'
    = already_deleted initial_state
      ∪ pending_batch {| matching_results := 1; results := [hit "a"] |}
          initial_state
    ∧ batches (trace s') = batches (trace initial_state) ++ [ids]
    ∧ (Forall is_Some outcomes →
       body failing_delete_world cfg0 initial_state = (Running, s')
       ∧ main_loop failing_delete_world cfg0 (S 2) initial_state
         = main_loop failing_delete_world cfg0 2 s'
       ∧ keep_deleting s' = true
       ∧ trace s'
         = trace (polled cfg0 0 {| matching_results := 1; results := [hit "a"] |}
                    initial_state)
           ++ [Dispatch max_threads (project_id cfg0) (collection_id cfg0) ids]
           ++ (report outcomes).1
           ++ [Print (sent_message (size (already_deleted s')))])
    ∧ (¬ Forall is_Some outcomes →
       body failing_delete_world cfg0 initial_state = (Raised, s')
       ∧ main_loop failing_delete_world cfg0 (S 2) initial_state = (Raised, s')
       ∧ trace s'
         = trace (polled cfg0 0 {| matching_results := 1; results := [hit "a"] |}
                    initial_state)
           ++ [Dispatch max_threads (project_id cfg0) (collection_id cfg0) ids]
           ++ (report outcomes).1).
Proof.
  apply (failed_delete_ends_run failing_delete_world cfg0 2 0
           {| matching_results := 1; results := [hit "a"] |} initial_state).
  - reflexivity.
  - unfold max_tries. lia.
  - intros j Hj. lia.
  - reflexivity.
  - reflexivity.
  - intros Hempty. vm_compute in Hempty. discriminate Hempty.
Defined.

(** C4, as stated, fails: the only document's delete request raises, the
    identifier is dispatched, and the pass does not fall through to the next
    one: the run ends with the exception. *)
Lemma failed_delete_aborts_run :
  delete_task failing_delete_world cfg0 1 "a" = None
  ∧ batches (trace (body failing_delete_world cfg0 initial_state).2) = [["a"]]
  ∧ (body failing_delete_world cfg0 initial_state).1 ≠ Running
  ∧ ∀ fuel,
      (main_loop failing_delete_world cfg0 (S fuel) initial_state).1 = Raised.
Proof.
  split_and!.
  - reflexivity.
  - vm_compute. reflexivity.
  - vm_compute. discriminate.
  - intros fuel. rewrite main_loop_pass by reflexivity.
    assert ((body failing_delete_world cfg0 initial_state).1 = Raised) as Hbody
      by (vm_compute; reflexivity).
    destruct (body failing_delete_world cfg0 initial_state) as [o s'].
    simpl in Hbody. by rewrite Hbody.
Qed.

(** ** The worker pool *)

Lemma report_app (l1 l2 : list (option string)) :
  report (l1 ++ l2)
  = if (report l1).2
    then ((report l1).1 ++ (report l2).1, (report l2).2)
    else report l1.
Proof.
  induction l1 as [|[dr|] l1 IH]; simpl.
  - by destruct (report l2).
  - rewrite IH. destruct (report l1) as [evs []]; simpl; [|done].
    by destruct (report l2).
  - done.
Qed.

Section PoolFacts.

Context (max_workers : nat) (task : string → option string) (ids : list string).

Local Abbreviation act := (pool_act max_workers task).
Local Abbreviation run := (pool_run max_workers task).
Local Abbreviation invariant := (pool_invariant max_workers task ids).

Lemma pool_init_invariant : invariant (pool_init ids).
Proof.
  unfold pool_invariant, reader_agrees. simpl. split_and!; try done.
  - by rewrite app_nil_r.
  - lia.
  - by exists [].
Qed.

(** Every action keeps the invariant. *)
Lemma pool_act_invariant (a : Action) (p p' : Pool) :
  invariant p → act a p = Some p' → invariant p'.
Proof.
  intros (Hall & Hsent & Hbound & Hcancel & Hraised & Hreader) Hact.
  destruct a as [|worker|]; simpl in Hact.
  - (* Start *)
    destruct (work_queue p) as [|did queue] eqn:Hqueue; [done|].
    case_decide; [|done]. injection Hact as <-.
    unfold pool_invariant, reader_agrees. simpl. split_and!; try done.
    + by rewrite <- (assoc_L (++)).
    + rewrite <- Hsent, <- !(assoc_L (++)). f_equiv. apply Permutation_app_comm.
    + rewrite length_app. simpl. lia.
  - (* Finish *)
    destruct (in_flight p !! worker) as [did|] eqn:Hworker; [|done].
    injection Hact as <-.
    unfold pool_invariant, reader_agrees. simpl. split_and!; try done.
    + rewrite <- Hsent. symmetry.
      etrans; [apply Permutation_app_tail, (delete_Permutation _ _ _ Hworker)|].
      apply Permutation_middle.
    + pose proof (length_delete (in_flight p) worker
                    (mk_is_Some _ _ Hworker)). lia.
  - (* Next *)
    unfold reader_agrees in Hreader.
    destruct (reader p) eqn:Hrd; [|done..].
    destruct Hreader as (yielded & Hids & Hprinted).
    destruct (futures p) as [|did fs] eqn:Hfs.
    + injection Hact as <-.
      unfold pool_invariant, reader_agrees. simpl. split_and!; try done.
      * intros _. by apply Hcancel.
      * by rewrite Hids, app_nil_r.
    + case_decide as Hended; [|done].
      destruct (task did) as [dr|] eqn:Htask; injection Hact as <-;
        unfold pool_invariant, reader_agrees; simpl.
      * split_and!; try done.
        exists (yielded ++ [did]). split.
        -- by rewrite Hids, <- (assoc_L (++)).
        -- rewrite fmap_app, report_app, Hprinted. simpl. by rewrite Htask.
      * rewrite (Hcancel ltac:(done)) in *. split_and!; try done.
        -- rewrite <- Hall, !app_nil_r, app_nil_l. f_equiv.
           rewrite Permutation_app_comm. apply filter_app_complement.
        -- intros _. exists did. split; [|done].
           rewrite Hids. apply elem_of_app. right. apply list_elem_of_here.
        -- rewrite Hids, fmap_app, report_app, Hprinted. simpl.
           by rewrite Htask, app_nil_r.
Qed.

Lemma pool_run_invariant (schedule : list Action) :
  ∀ p p', invariant p → run schedule p = Some p' → invariant p'.
Proof.
  induction schedule as [|a schedule IH]; intros p p' Hinv Hrun; simpl in Hrun.
  - by injection Hrun as <-.
  - destruct (act a p) as [p1|] eqn:Hact; [|done].
    eapply IH; [|done]. by eapply pool_act_invariant.
Qed.

(** Every action brings the pool closer to its end. *)
Lemma pool_act_measure (a : Action) (p p' : Pool) :
  act a p = Some p' → pool_measure p' < pool_measure p.
Proof.
  intros Hact. destruct a as [|worker|]; simpl in Hact.
  - destruct (work_queue p) as [|did queue] eqn:Hqueue; [done|].
    case_decide; [|done]. injection Hact as <-.
    unfold pool_measure. simpl. rewrite Hqueue, length_app. simpl. lia.
  - destruct (in_flight p !! worker) as [did|] eqn:Hworker; [|done].
    injection Hact as <-.
    pose proof (length_delete (in_flight p) worker (mk_is_Some _ _ Hworker)).
    pose proof (lookup_lt_Some _ _ _ Hworker).
    unfold pool_measure. simpl. lia.
  - destruct (reader p) eqn:Hrd; [|done..].
    destruct (futures p) as [|did fs] eqn:Hfs.
    + injection Hact as <-. unfold pool_measure. simpl. rewrite Hrd, Hfs.
      simpl. lia.
    + case_decide; [|done].
      destruct (task did); injection Hact as <-;
        unfold pool_measure; simpl; rewrite Hrd, Hfs; simpl; [lia|].
      pose proof (length_filter (λ x, x ∉ fs) (work_queue p)). lia.
Qed.

Lemma pool_run_measure (schedule : list Action) :
  ∀ p p', run schedule p = Some p' →
          length schedule + pool_measure p' ≤ pool_measure p.
Proof.
  induction schedule as [|a schedule IH]; intros p p' Hrun; simpl in Hrun.
  - injection Hrun as <-. simpl. lia.
  - destruct (act a p) as [p1|] eqn:Hact; [|done].
    apply pool_act_measure in Hact. apply IH in Hrun. simpl. lia.
Qed.

(** As long as the [with] block is not left, some action is enabled. *)
Lemma pool_progress (p : Pool) :
  0 < max_workers → invariant p → pool_done p = false →
  ∃ a p', act a p = Some p'.
Proof.
  intros Hworkers (Hall & Hsent & Hbound & Hcancel & Hraised & Hreader) Hdone.
  destruct (in_flight p) as [|did running] eqn:Hflight.
  - destruct (work_queue p) as [|did queue] eqn:Hqueue.
    + unfold pool_done in Hdone. rewrite Hqueue, Hflight in Hdone.
      unfold reader_agrees in Hreader.
      destruct (reader p) eqn:Hrd; [|done..].
      destruct Hreader as (yielded & Hids & _).
      exists Next. simpl. rewrite Hrd.
      destruct (futures p) as [|did fs] eqn:Hfs; [by eexists|].
      assert (did ∈ ended p) as Hended.
      { rewrite (Hcancel ltac:(done)) in Hall. simpl in Hall, Hsent.
        rewrite app_nil_r in Hall. rewrite Hsent, Hall, Hids.
        apply elem_of_app. right. apply list_elem_of_here. }
      rewrite decide_True by done. destruct (task did); by eexists.
    + exists Start. simpl. rewrite Hqueue, Hflight. simpl.
      rewrite decide_True by done. by eexists.
  - exists (Finish 0). simpl. rewrite Hflight. simpl. by eexists.
Qed.

(** Every state of the pool can be brought to the end of the [with] block. *)
Lemma pool_completes (n : nat) :
  0 < max_workers →
  ∀ p, pool_measure p ≤ n → invariant p →
       ∃ schedule p', run schedule p = Some p' ∧ pool_done p' = true.
Proof.
  intros Hworkers. induction n as [|n IH]; intros p Hn Hinv.
  - destruct (pool_done p) eqn:Hdone; [by exists [], p|].
    destruct (pool_progress p Hworkers Hinv Hdone) as (a & p1 & Hact).
    apply pool_act_measure in Hact. lia.
  - destruct (pool_done p) eqn:Hdone; [by exists [], p|].
    destruct (pool_progress p Hworkers Hinv Hdone) as (a & p1 & Hact).
    destruct (IH p1) as (schedule & p' & Hrun & Hdone').
    + apply pool_act_measure in Hact. lia.
    + by eapply pool_act_invariant.
    + exists (a :: schedule), p'. simpl. by rewrite Hact.
Qed.

End PoolFacts.

Section Dispatcher.

Context (W : World) (cfg : Config).

(** C9, as amended.  The dispatcher is handed the elements of the
    difference, each once, as the queue of a pool of [max_threads] = 16
    workers.  At every moment of every interleaving, no identifier has been
    requested twice, only identifiers of the batch have been requested, and
    at most 16 requests are in flight.  Every interleaving is finite and can
    be continued to the end of the [with] block.  At that end the main
    thread has printed what the results loop prints, every identifier has
    been requested or cancelled, and when no delete task raises every
    identifier has been requested exactly once. *)
Theorem dispatch_attempts (md : QueryResult) (s : State)
    (schedule : list Action) (p : Pool) :
  let ids := elements (pending_batch md s) in
  let task := delete_task W cfg (tick s) in
  pool_run max_threads task schedule (pool_init ids) = Some p →
  NoDup ids
  ∧ NoDup (sent p)
  ∧ (∀ did, did ∈ sent p → did ∈ pending_batch md s)
  ∧ length (in_flight p) ≤ 16
  ∧ length schedule ≤ 3 * length ids + 1
  ∧ (∃ schedule' p',
       pool_run max_threads task schedule' p = Some p' ∧ pool_done p' = true)
  ∧ (pool_done p = true →
     report (task <$> ids)
     = (printed p, if reader p is Exhausted then true else false)
     ∧ (∀ did, did ∈ pending_batch md s → did ∈ sent p ∨ did ∈ cancelled p)
     ∧ (Forall is_Some (task <$> ids) → sent p ≡ₚ ids)).
Proof.
  intros ids task Hrun.
  pose proof (pool_run_invariant max_threads task ids schedule _ _
                (pool_init_invariant max_threads task ids) Hrun) as Hinv.
  pose proof Hinv as (Hall & Hsent & Hbound & Hcancel & Hraised & Hreader).
  assert (NoDup ids) as Hnodup by apply NoDup_elements.
  split_and!.
  - done.
  - rewrite <- Hall in Hnodup. by apply NoDup_app in Hnodup as [? _].
  - intros did Hdid. apply elem_of_elements. fold ids. rewrite <- Hall.
    apply elem_of_app. by left.
  - exact Hbound.
  - apply pool_run_measure in Hrun. unfold pool_measure in Hrun at 2.
    simpl in Hrun. lia.
  - apply (pool_completes max_threads task ids (pool_measure p));
      [unfold max_threads; lia|done..].
  - intros Hdone. unfold pool_done in Hdone.
    destruct (work_queue p) eqn:Hqueue, (in_flight p) eqn:Hflight;
      try (by destruct (reader p)).
    unfold reader_agrees in Hreader.
    split_and!.
    + by destruct (reader p).
    + intros did Hdid. apply elem_of_elements in Hdid. fold ids in Hdid.
      rewrite <- Hall in Hdid. simpl in Hdid. by apply elem_of_app in Hdid.
    + intros Hok.
      destruct (reader p) eqn:Hrd; [done| |].
      * rewrite (Hcancel ltac:(done)), !app_nil_r in Hall. done.
      * destruct (Hraised eq_refl) as (did & Hdid & Hnone).
        rewrite Forall_fmap, Forall_forall in Hok.
        specialize (Hok did Hdid). simpl in Hok. rewrite Hnone in Hok.
        by destruct Hok.
Qed.

End Dispatcher.

Lemma dispatch_attempts_witness :
  let ids := elements (pending_batch scenario_result initial_state) in
  let task := delete_task scenario_world cfg0 (tick initial_state) in
  ∃ p,
    pool_run max_threads task (sequential_schedule ids) (pool_init ids) = Some p
    ∧ NoDup ids
    ∧ NoDup (sent p)
    ∧ (∀ did, did ∈ sent p → did ∈ pending_batch scenario_result initial_state)
    ∧ length (in_flight p) ≤ 16
    ∧ length (sequential_schedule ids) ≤ 3 * length ids + 1
    ∧ (∃ schedule' p',
         pool_run max_threads task schedule' p = Some p' ∧ pool_done p' = true)
    ∧ (pool_done p = true →
       report (task <$> ids)
       = (printed p, if reader p is Exhausted then true else false)
       ∧ (∀ did, did ∈ pending_batch scenario_result initial_state →
                 did ∈ sent p ∨ did ∈ cancelled p)
       ∧ (Forall is_Some (task <$> ids) → sent p ≡ₚ ids)).
Proof.
  intros ids task.
  assert (∃ p, pool_run max_threads task (sequential_schedule ids) (pool_init ids)
               = Some p) as [p Hrun].
  { eexists. vm_compute. reflexivity. }
  exists p. split; [exact Hrun|].
  exact (dispatch_attempts scenario_world cfg0 scenario_result initial_state
           (sequential_schedule ids) p Hrun).
Defined.

(** C9, as stated, fails: two documents are visible and the delete requests
    raise.  The batch holds both identifiers.  A worker makes the request for
    the first, it raises, and the main thread asks for its result before a
    worker has taken the second from the queue: the second is cancelled, the
    [with] block is left, and no request was made for it. *)
Lemma raising_delete_skips_identifier :
  let md := {| matching_results := 2; results := [hit "a"; hit "b"] |} in
  let ids := elements (pending_batch md initial_state) in
  let task := delete_task failing_deletes_world cfg0 1 in
  batches (trace (body failing_deletes_world cfg0 initial_state).2) = [ids]
  ∧ ∃ p,
      pool_run max_threads task [Start; Finish 0; Next] (pool_init ids) = Some p
      ∧ pool_done p = true
      ∧ ∃ did, did ∈ pending_batch md initial_state ∧ did ∉ sent p.
Proof.
  intros md ids task. split; [vm_compute; reflexivity|].
  eexists. split; [vm_compute; reflexivity|]. split; [reflexivity|].
  exists "b". split.
  - apply elem_of_elements. vm_compute. apply list_elem_of_further, list_elem_of_here.
  - simpl. intros Hb. apply list_elem_of_singleton in Hb. discriminate Hb.
Qed.

Lemma no_redundant_dispatch_witness :
  ("a" ∉ already_deleted initial_state)
  ∧ NoDup (dispatched (trace (main_loop scenario_world cfg0 5 initial_state).2)).
Proof.
  destruct (no_redundant_dispatch scenario_world cfg0)
    as (Hfresh & _ & _ & Hrun).
  split.
  - apply (Hfresh scenario_result initial_state "a").
    apply elem_of_elements. vm_compute. apply list_elem_of_further, list_elem_of_here.
  - apply (Hrun 5).
Defined.

Lemma dispatched_set_is_union_witness :
  already_deleted (diffing scenario_world cfg0 scenario_result initial_state).2
  = already_deleted initial_state ∪ pending_batch scenario_result initial_state.
Proof.
  destruct (dispatched_set_is_union scenario_world cfg0) as (_ & Hstep & _).
  apply (Hstep scenario_result initial_state). reflexivity.
Defined.

(** * Further properties of the script *)

(** ** The events of a run *)

Lemma queries_app (tr1 tr2 : list Event) :
  queries (tr1 ++ tr2) = queries tr1 + queries tr2.
Proof.
  induction tr1 as [|e tr1 IH]; [done|].
  destruct e; simpl; by rewrite ?IH.
Qed.

Lemma queries_report (delete_results : list (option string)) :
  queries (report delete_results).1 = 0.
Proof.
  destruct (report_prints delete_results) as [lines ->].
  induction lines as [|l lines IH]; done.
Qed.

Section Events.

Context (W : World) (cfg : Config) (P : Event → Prop).

Hypothesis Pquery : P (Query (project_id cfg) (collection_id cfg) batch_size).
Hypothesis Pprint : ∀ line, P (Print line).
Hypothesis Pretry : P (Sleep 1).
Hypothesis Psettle : P (Sleep 30).
Hypothesis Pdispatch :
  ∀ ids, ids ≠ [] → NoDup ids →
         P (Dispatch max_threads (project_id cfg) (collection_id cfg) ids).

Lemma report_events (delete_results : list (option string)) :
  Forall P (report delete_results).1.
Proof.
  destruct (report_prints delete_results) as [lines ->].
  apply Forall_fmap, Forall_forall. intros line _. apply Pprint.
Qed.

Lemma failed_polls_events (k : nat) :
  Forall P (concat (replicate k (failed_poll_events cfg))).
Proof.
  induction k as [|k IH]; simpl; [constructor|].
  repeat (constructor; [done|]). exact IH.
Qed.

Lemma diffing_events (md : QueryResult) (s : State) :
  ∃ evs, trace (diffing W cfg md s).2 = trace s ++ evs ∧ Forall P evs.
Proof.
  destruct (decide (0 < matching_results md)%Z) as [Hcount|Hcount];
    [destruct (decide (pending_batch md s = ∅)) as [Hempty|Hne]|].
  - rewrite diffing_settle_wait by done. cbn [snd]. rewrite trace_emit.
    eexists. split; [done|]. by repeat constructor.
  - rewrite diffing_dispatch by done.
    assert (P (Dispatch max_threads (project_id cfg) (collection_id cfg)
                 (elements (pending_batch md s)))) as Hd.
    { apply Pdispatch; [|apply NoDup_elements].
      intros Hnil. apply Hne. apply leibniz_equiv.
      by apply elements_empty_inv. }
    destruct (report _).2; cbn [snd];
      rewrite trace_emit, trace_set_already_deleted, trace_emit,
        <- (assoc_L (++)); (eexists; split; [done|]).
    + constructor; [done|]. apply Forall_app. split; [apply report_events|].
      by constructor.
    + constructor; [done|]. apply report_events.
  - rewrite diffing_no_documents by done. cbn [snd].
    eexists. split; [reflexivity|]. by constructor.
Qed.

Lemma polled_events (k : nat) (r : QueryResult) (s : State) :
  ∃ evs, trace (polled cfg k r s) = trace s ++ evs ∧ Forall P evs.
Proof.
  unfold polled.
  assert (trace (set_matched_documents r
                   (next_tick
                      (emit [Query (project_id cfg) (collection_id cfg) batch_size]
                         (failed_polls cfg k s))))
          = trace (failed_polls cfg k s)
            ++ [Query (project_id cfg) (collection_id cfg) batch_size]) as ->
    by reflexivity.
  rewrite trace_failed_polls, <- (assoc_L (++)).
  eexists. split; [done|]. apply Forall_app.
  split; [apply failed_polls_events | by constructor].
Qed.

Lemma body_events (s : State) :
  ∃ evs, trace (body W cfg s).2 = trace s ++ evs ∧ Forall P evs.
Proof.
  destruct (body_cases W cfg s)
    as [(k & r & _ & _ & _ & ->)|[(r & _ & _ & ->)|[_ ->]]].
  - destruct (diffing_events r (polled cfg k r s)) as (evs & -> & Hevs).
    destruct (polled_events k r s) as (evs' & -> & Hevs').
    rewrite <- (assoc_L (++)). eexists. split; [done|].
    apply Forall_app. by split.
  - destruct (polled_events (max_tries - 1) r s) as (evs' & Htr & Hevs').
    cbn [snd]. rewrite trace_emit, Htr, <- (assoc_L (++)).
    eexists. split; [done|]. apply Forall_app. split; [done|]. by constructor.
  - cbn [snd]. rewrite trace_emit, trace_failed_polls, <- (assoc_L (++)).
    eexists. split; [done|]. apply Forall_app.
    split; [apply failed_polls_events | by constructor].
Qed.

Lemma main_loop_events (fuel : nat) :
  ∀ s, ∃ evs, trace (main_loop W cfg fuel s).2 = trace s ++ evs ∧ Forall P evs.
Proof.
  induction fuel as [|fuel IH]; intros s; simpl.
  - exists []. rewrite app_nil_r. split; [by destruct (keep_deleting s)|constructor].
  - destruct (keep_deleting s);
      [|exists []; rewrite app_nil_r; split; [done|constructor]].
    destruct (body_events s) as (evs & Hbody & Hevs).
    destruct (body W cfg s) as [[] s']; simpl in *;
      try (rewrite Hbody; by eexists).
    destruct (IH s') as (evs' & -> & Hevs'). rewrite Hbody, <- (assoc_L (++)).
    eexists. split; [done|]. apply Forall_app. by split.
Qed.

End Events.

(** ** Start-up reads two arguments and two variables *)

(** X1.  With both arguments given, the script reads nothing of the command
    line but its second and third entry and nothing of the environment but
    [WD_URL] and [WD_TOKEN]: further arguments and other variables change
    neither what it prints nor what it asks of the service; and with both
    variables set it starts the loop for the project and the collection
    named by the two arguments. *)
Theorem startup_reads_two_arguments_two_variables (argv extra : list string)
    (environ environ' : gmap string string) :
  3 ≤ length argv →
  environ' !! "WD_URL" = environ !! "WD_URL" →
  environ' !! "WD_TOKEN" = environ !! "WD_TOKEN" →
  startup (argv ++ extra) environ' = startup argv environ
  ∧ (∀ fuel W, script fuel W (argv ++ extra) environ' = script fuel W argv environ)
  ∧ (∀ url tok,
       environ !! "WD_URL" = Some url → environ !! "WD_TOKEN" = Some tok →
       ∃ project collection,
         argv !! 1 = Some project ∧ argv !! 2 = Some collection
         ∧ startup argv environ
           = ([], inr {| api_url := url; token := tok;
                         project_id := project; collection_id := collection |})).
Proof.
  intros Hargs Hurl Htoken.
  assert (startup (argv ++ extra) environ' = startup argv environ) as Hsame.
  { unfold startup. rewrite length_app, Hurl, Htoken.
    rewrite !decide_False by lia.
    by rewrite !lookup_app_l by lia. }
  split_and!.
  - exact Hsame.
  - intros fuel W. unfold script. by rewrite Hsame.
  - intros url tok Hu Ht.
    destruct (lookup_lt_is_Some_2 argv 1 ltac:(lia)) as [project Hp].
    destruct (lookup_lt_is_Some_2 argv 2 ltac:(lia)) as [collection Hc].
    exists project, collection. split_and!; [done..|].
    unfold startup. rewrite decide_False by lia. by rewrite Hu, Ht, Hp, Hc.
Qed.

Lemma startup_reads_two_arguments_two_variables_witness :
  startup (argv0 ++ ["--force"]) (<["HOME" := "/root"]> environ0)
  = startup argv0 environ0.
Proof.
  apply (startup_reads_two_arguments_two_variables argv0 ["--force"]
           environ0 (<["HOME" := "/root"]> environ0)).
  - simpl. lia.
  - reflexivity.
  - reflexivity.
Defined.

(** ** What a run asks of the service *)

(** X2.  Whatever the service answers and however long the run lasts, every
    query of the script asks for [batch_size] = 1000 identifiers of the
    project and the collection named on the command line, every batch is
    dispatched for that collection to a pool of 16 workers, is not empty and
    holds no identifier twice, and every sleep lasts one second or thirty. *)
Theorem script_events_expected (fuel : nat) (W : World) (argv : list string)
    (environ : gmap string string) (project collection : string) :
  argv !! 1 = Some project →
  argv !! 2 = Some collection →
  Forall (expected_event project collection) (script fuel W argv environ).2.
Proof.
  intros Hp Hc. unfold script.
  destruct (startup argv environ) as [evs [o|cfg]] eqn:Hstart.
  - unfold startup in Hstart.
    repeat (case_decide || case_match); simplify_eq; by repeat constructor.
  - assert (evs = [] ∧ project_id cfg = project ∧ collection_id cfg = collection)
      as (-> & Hproject & Hcollection).
    { unfold startup in Hstart.
      repeat (case_decide || case_match); simplify_eq.
      simpl. by rewrite Hp, Hc. }
    destruct (main_loop_events W cfg (expected_event project collection))
      with (fuel := fuel) (s := emit [] initial_state)
      as (evs & Htrace & Hevs).
    + simpl. by rewrite Hproject, Hcollection.
    + done.
    + simpl. by left.
    + simpl. by right.
    + intros ids Hne Hnodup. simpl. by rewrite Hproject, Hcollection.
    + destruct (main_loop W cfg fuel (emit [] initial_state)) as [o s].
      simpl in *. by rewrite Htrace.
Qed.

Lemma script_events_expected_witness :
  Forall (expected_event "proj" "coll") (script 5 scenario_world argv0 environ0).2.
Proof.
  apply (script_events_expected 5 scenario_world argv0 environ0 "proj" "coll");
    reflexivity.
Defined.

Lemma elem_of_concat (x : string) (ls : list (list string)) :
  x ∈ concat ls ↔ ∃ l, x ∈ l ∧ l ∈ ls.
Proof.
  induction ls as [|l ls IH]; simpl.
  - split; [by intros ?%elem_of_nil|]. intros (l & _ & Hl). by apply elem_of_nil in Hl.
  - rewrite elem_of_app, IH. split.
    + intros [Hx|(l' & Hx & Hl')].
      * exists l. split; [done|]. apply list_elem_of_here.
      * exists l'. split; [done|]. by apply list_elem_of_further.
    + intros (l' & Hx & Hl'). apply elem_of_cons in Hl' as [->|Hl'].
      * by left.
      * right. by exists l'.
Qed.

Lemma queries_none (evs : list Event) :
  Forall (λ e, ∀ p c n, e ≠ Query p c n) evs → queries evs = 0.
Proof.
  induction 1 as [|e evs He _ IH]; [done|].
  destruct e; simpl; try done. by destruct (He project collection count).
Qed.

Lemma queries_failed_polls (cfg : Config) (k : nat) :
  queries (concat (replicate k (failed_poll_events cfg))) = k.
Proof. induction k as [|k IH]; simpl; by rewrite ?IH. Qed.

Section Passes.

Context (W : World) (cfg : Config).

Local Abbreviation query_at t :=
  (discovery_query W t (project_id cfg) (collection_id cfg) batch_size).

Lemma queries_diffing (md : QueryResult) (s : State) :
  queries (trace (diffing W cfg md s).2) = queries (trace s).
Proof.
  destruct (diffing_events W cfg (λ e, ∀ p c n, e ≠ Query p c n)) with md s
    as (evs & -> & Hevs); try done.
  rewrite queries_app, (queries_none evs Hevs). lia.
Qed.

Lemma queries_polled (k : nat) (r : QueryResult) (s : State) :
  queries (trace (polled cfg k r s)) = queries (trace s) + S k.
Proof.
  unfold polled.
  assert (trace (set_matched_documents r
                   (next_tick
                      (emit [Query (project_id cfg) (collection_id cfg) batch_size]
                         (failed_polls cfg k s))))
          = trace (failed_polls cfg k s)
            ++ [Query (project_id cfg) (collection_id cfg) batch_size]) as ->
    by reflexivity.
  rewrite trace_failed_polls, !queries_app, queries_failed_polls. simpl. lia.
Qed.

(** ** The retry budget of a pass *)

Lemma body_queries (s : State) :
  ∃ n, 1 ≤ n ≤ max_tries
       ∧ queries (trace (body W cfg s).2) = queries (trace s) + n
       ∧ tick (body W cfg s).2 = tick s + n.
Proof.
  destruct (body_cases W cfg s)
    as [(k & r & Hk & _ & _ & ->)|[(r & _ & _ & ->)|[_ ->]]].
  - exists (S k). split; [unfold max_tries in *; simpl in Hk; lia|].
    destruct (diffing_frame W cfg r (polled cfg k r s)) as (-> & _).
    destruct (polled_frame cfg k r s) as (_ & _ & _ & -> & _).
    rewrite queries_diffing, queries_polled. split; lia.
  - exists max_tries. split; [unfold max_tries; lia|].
    destruct (polled_frame cfg (max_tries - 1) r s) as (_ & _ & _ & Htick & _).
    cbn [snd]. rewrite trace_emit, tick_emit, queries_app, queries_polled, Htick.
    unfold max_tries. simpl. split; lia.
  - exists max_tries. split; [unfold max_tries; lia|].
    cbn [snd]. rewrite trace_emit, tick_emit, queries_app, trace_failed_polls,
      queries_app, queries_failed_polls, tick_failed_polls.
    simpl. split; lia.
Qed.

(** X3.  One pass through the loop body makes at least one query and at most
    [max_tries] = 5, whatever the service answers and whatever the state; a
    pass that gives up has made exactly five. *)
Theorem queries_per_pass (s : State) :
  (∃ n, 1 ≤ n ≤ max_tries
        ∧ queries (trace (body W cfg s).2) = queries (trace s) + n)
  ∧ (∀ status, (body W cfg s).1 = Exited status →
       queries (trace (body W cfg s).2) = queries (trace s) + max_tries).
Proof.
  split.
  - destruct (body_queries s) as (n & Hn & Hq & _). by exists n.
  - intros status Hexit.
    destruct (body_cases W cfg s)
      as [(k & r & _ & _ & _ & Hbody)|[(r & _ & _ & Hbody)|[_ Hbody]]];
      rewrite Hbody in *.
    + by destruct (diffing_outcome W cfg r (polled cfg k r s)) as [Ho|Ho];
        rewrite Ho in Hexit.
    + cbn [snd]. rewrite trace_emit, queries_app, queries_polled.
      unfold max_tries. simpl. lia.
    + cbn [snd]. rewrite trace_emit, queries_app, trace_failed_polls,
        queries_app, queries_failed_polls. simpl. lia.
Qed.

(** ** A poll that returns within the first four attempts *)

(** X4.  When the query raises [k] times, [k] at most 3, and then returns a
    result, the pass has printed the retry line and slept one second after
    each of the [k] failures, and goes on to the diffing step with that
    result: the pass ends as the diffing step ends, and not by giving up. *)
Theorem early_success_is_diffed (k : nat) (md : QueryResult) (s : State) :
  k < max_tries - 1 →
  (∀ j, j < k → query_at (tick s + j) = None) →
  query_at (tick s + k) = Some md →
  body W cfg s = diffing W cfg md (polled cfg k md s)
  ∧ trace (polled cfg k md s)
    = trace s ++ concat (replicate k (failed_poll_events cfg))
      ++ [Query (project_id cfg) (collection_id cfg) batch_size]
  ∧ matched_documents (polled cfg k md s) = Some md
  ∧ already_deleted (polled cfg k md s) = already_deleted s
  ∧ (∀ status, (body W cfg s).1 ≠ Exited status).
Proof.
  intros Hk Hfail Hok.
  destruct (polled_frame cfg k md s) as (Hdel & _ & Hmd & _).
  pose proof (body_polled W cfg k md s Hk Hfail Hok) as Hbody.
  split_and!; [done| |done|done|].
  - unfold polled.
    assert (trace (set_matched_documents md
                     (next_tick
                        (emit [Query (project_id cfg) (collection_id cfg) batch_size]
                           (failed_polls cfg k s))))
            = trace (failed_polls cfg k s)
              ++ [Query (project_id cfg) (collection_id cfg) batch_size]) as ->
      by reflexivity.
    by rewrite trace_failed_polls, <- (assoc_L (++)).
  - intros status. rewrite Hbody.
    destruct (diffing_outcome W cfg md (polled cfg k md s)) as [-> | ->]; done.
Qed.

End Passes.

Lemma early_success_is_diffed_witness :
  body flaky_world cfg0 initial_state
  = diffing flaky_world cfg0 scenario_result
      (polled cfg0 2 scenario_result initial_state).
Proof.
  apply (early_success_is_diffed flaky_world cfg0 2 scenario_result
           initial_state).
  - unfold max_tries. lia.
  - intros j Hj. by destruct j as [|[|j]]; [..|lia].
  - reflexivity.
Defined.

Section Runs.

Context (W : World) (cfg : Config).

Local Abbreviation query_at t :=
  (discovery_query W t (project_id cfg) (collection_id cfg) batch_size).

(** ** Only what the index has shown is deleted *)

Lemma body_batches_seen (s : State) :
  tick s ≤ tick (body W cfg s).2
  ∧ ∃ bs, batches (trace (body W cfg s).2) = batches (trace s) ++ bs
          ∧ ∀ ids did, ids ∈ bs → did ∈ ids →
              ∃ t md, tick s ≤ t < tick (body W cfg s).2
                      ∧ query_at t = Some md
                      ∧ did ∈ document_id <$> results md.
Proof.
  destruct (body_queries W cfg s) as (n & Hn & _ & Htick).
  split; [lia|].
  destruct (body_cases W cfg s)
    as [(k & r & Hk & _ & Hok & Hbody)|[(r & _ & _ & Hbody)|[_ Hbody]]].
  - rewrite Hbody in *.
    destruct (polled_frame cfg k r s) as (_ & _ & _ & Htick' & Hbatches & _).
    destruct (diffing_frame W cfg r (polled cfg k r s)) as (Htick'' & _).
    rewrite diffing_batches, Hbatches. eexists. split; [done|].
    intros ids did Hids Hdid. case_decide; [|by apply elem_of_nil in Hids].
    apply list_elem_of_singleton in Hids as ->.
    apply elem_of_elements in Hdid. unfold pending_batch in Hdid.
    apply elem_of_difference in Hdid as [Hdid _].
    apply elem_of_list_to_set in Hdid.
    exists (tick s + k), r. split; [lia|done].
  - exists []. rewrite Hbody.
    destruct (polled_frame cfg (max_tries - 1) r s)
      as (_ & _ & _ & _ & Hbatches & _).
    cbn [snd]. rewrite trace_emit, batches_app, Hbatches.
    split; [done|]. intros ids did Hids. by apply elem_of_nil in Hids.
  - exists []. rewrite Hbody. cbn [snd].
    rewrite trace_emit, batches_app, batches_failed_polls.
    split; [done|]. intros ids did Hids. by apply elem_of_nil in Hids.
Qed.

Lemma main_loop_seen (fuel : nat) :
  ∀ s,
    tick s ≤ tick (main_loop W cfg fuel s).2
    ∧ ((∀ did, did ∈ dispatched (trace s) →
               ∃ t md, t < tick s ∧ query_at t = Some md
                       ∧ did ∈ document_id <$> results md) →
       ∀ did, did ∈ dispatched (trace (main_loop W cfg fuel s).2) →
              ∃ t md, t < tick (main_loop W cfg fuel s).2
                      ∧ query_at t = Some md
                      ∧ did ∈ document_id <$> results md).
Proof.
  induction fuel as [|fuel IH]; intros s.
  { simpl. by destruct (keep_deleting s). }
  simpl. destruct (keep_deleting s); [|done].
  destruct (body_batches_seen s) as (Htick & bs & Hbatches & Hbs).
  assert ((∀ did, did ∈ dispatched (trace s) →
            ∃ t md, t < tick s ∧ query_at t = Some md
                    ∧ did ∈ document_id <$> results md) →
         ∀ did, did ∈ dispatched (trace (body W cfg s).2) →
            ∃ t md, t < tick (body W cfg s).2 ∧ query_at t = Some md
                    ∧ did ∈ document_id <$> results md) as Hpass.
  { intros Hold did Hdid. unfold dispatched in Hdid.
    rewrite Hbatches, concat_app in Hdid.
    apply elem_of_app in Hdid as [Hdid|Hdid].
    - destruct (Hold did Hdid) as (t & md & ? & ?). exists t, md.
      split; [lia|done].
    - apply elem_of_concat in Hdid as (ids & Hdid & Hids).
      destruct (Hbs ids did Hids Hdid) as (t & md & ? & ?). exists t, md.
      split; [lia|done]. }
  destruct (body W cfg s) as [[] s']; simpl in *; try (by split).
  destruct (IH s') as (Htick' & Hrest). split; [lia|]. auto.
Qed.

(** X5.  The script never asks for the deletion of an identifier the index
    has not shown: every identifier handed to the dispatcher in a run is in
    the results of a query that was answered earlier in that run. *)
Theorem only_seen_identifiers_dispatched (fuel : nat) (did : string) :
  did ∈ dispatched (trace (main_loop W cfg fuel initial_state).2) →
  ∃ t md,
    t < tick (main_loop W cfg fuel initial_state).2
    ∧ query_at t = Some md
    ∧ did ∈ document_id <$> results md.
Proof.
  apply (main_loop_seen fuel initial_state).
  intros d Hd. by apply elem_of_nil in Hd.
Qed.

(** ** How a run can end *)

Lemma report_raised (delete_results : list (option string)) :
  (report delete_results).2 = false → None ∈ delete_results.
Proof.
  induction delete_results as [|[dr|] rest IH]; simpl.
  - done.
  - destruct (report rest) as [evs ok]. simpl in *. intros Hok.
    apply list_elem_of_further. by apply IH.
  - intros _. apply list_elem_of_here.
Qed.

Lemma body_ending (s : State) :
  match (body W cfg s).1 with
  | Running => True
  | Completed => False
  | Exited status =>
      status = 0%Z ∧ last (trace (body W cfg s).2) = Some (Print giving_up_message)
  | Raised =>
      ∃ t did, did ∈ dispatched (trace (body W cfg s).2)
               ∧ delete_task W cfg t did = None
  end.
Proof.
  destruct (body_cases W cfg s)
    as [(k & r & _ & _ & _ & ->)|[(r & _ & _ & ->)|[_ ->]]].
  - destruct (decide (0 < matching_results r)%Z) as [Hcount|Hcount];
      [destruct (decide (pending_batch r (polled cfg k r s) = ∅)) as [Hempty|Hne]|].
    + by rewrite diffing_settle_wait.
    + pose proof (diffing_batches W cfg r (polled cfg k r s)) as Hbatches.
      rewrite decide_True in Hbatches by done.
      rewrite diffing_dispatch in * by done.
      destruct (report _).2 eqn:Hrep; [done|]. cbn [fst snd] in *.
      apply report_raised, list_elem_of_fmap in Hrep as (did & Hnone & Hdid).
      exists (tick (polled cfg k r s)), did. split; [|done].
      unfold dispatched. rewrite Hbatches, concat_app. apply elem_of_app.
      right. simpl. by rewrite app_nil_r.
    + by rewrite diffing_no_documents.
  - cbn [fst snd]. split; [done|]. rewrite trace_emit. apply last_snoc.
  - cbn [fst snd]. split; [done|]. rewrite trace_emit. apply last_snoc.
Qed.

(** X6.  A run ends in one of three ways only.  It ends regularly, with
    [keep_deleting] cleared; or through [sys.exit()] with status 0 right
    after the giving-up line; or with an exception, and then a delete
    request for an identifier handed to the dispatcher has raised: nothing
    else in the loop raises, in particular no name is read before it is
    bound. *)
Theorem run_endings (fuel : nat) (s : State) :
  match (main_loop W cfg fuel s).1 with
  | Running => keep_deleting (main_loop W cfg fuel s).2 = true
  | Completed => keep_deleting (main_loop W cfg fuel s).2 = false
  | Exited status =>
      status = 0%Z
      ∧ last (trace (main_loop W cfg fuel s).2) = Some (Print giving_up_message)
  | Raised =>
      ∃ t did, did ∈ dispatched (trace (main_loop W cfg fuel s).2)
               ∧ delete_task W cfg t did = None
  end.
Proof.
  revert s. induction fuel as [|fuel IH]; intros s; simpl.
  - by destruct (keep_deleting s) eqn:Hkeep.
  - destruct (keep_deleting s) eqn:Hkeep; [|done].
    pose proof (body_ending s) as Hbody.
    destruct (body W cfg s) as [[] s']; simpl in *; try done. apply IH.
Qed.

End Runs.

Lemma only_seen_identifiers_dispatched_witness :
  ∃ t md,
    t < tick (main_loop scenario_world cfg0 5 initial_state).2
    ∧ discovery_query scenario_world t (project_id cfg0) (collection_id cfg0)
        batch_size = Some md
    ∧ "b" ∈ document_id <$> results md.
Proof.
  apply (only_seen_identifiers_dispatched scenario_world cfg0 5 "b").
  vm_compute. apply list_elem_of_further, list_elem_of_further, list_elem_of_here.
Defined.

(** ** The results loop *)

(** X7.  The results loop prints the responses of the delete tasks in the
    order of submission up to the first task that raised, and nothing after
    it; it runs to its end exactly when no task raised. *)
Theorem report_until_first_failure (delete_results : list (option string)) :
  ∃ responses,
    (report delete_results).1 = Print <$> responses
    ∧ ((report delete_results).2 = true
       ∧ delete_results = Some <$> responses
       ∨ (report delete_results).2 = false
         ∧ ∃ rest, delete_results = (Some <$> responses) ++ None :: rest).
Proof.
  induction delete_results as [|[dr|] rest (responses & Hprinted & Hcases)].
  - exists []. split; [done|]. by left.
  - exists (dr :: responses). simpl.
    destruct (report rest) as [evs ok]. simpl in *. rewrite Hprinted.
    split; [done|].
    destruct Hcases as [[-> ->]|[-> (rest' & ->)]]; [by left|].
    right. split; [done|]. by exists rest'.
  - exists []. split; [done|]. right. split; [done|]. by exists rest.
Qed.

Section Progress.

Context (W : World) (cfg : Config).

Local Abbreviation query_at t :=
  (discovery_query W t (project_id cfg) (collection_id cfg) batch_size).

(** ** The count line *)

(** X8.  In a state that agrees with its trace, after a batch whose delete
    tasks all returned the pass ends with the count line, and the count is
    the number of identifiers handed to the dispatcher since the start of the
    run: the count before plus the size of the batch. *)
Theorem count_line_is_cumulative (md : QueryResult) (s : State) :
  consistent s →
  (0 < matching_results md)%Z →
  pending_batch md s ≠ ∅ →
  Forall is_Some (delete_task W cfg (tick s) <$> elements (pending_batch md s)) →
  last (trace (diffing W cfg md s).2)
  = Some (Print (sent_message (length (dispatched (trace (diffing W cfg md s).2)))))
  ∧ length (dispatched (trace (diffing W cfg md s).2))
    = length (dispatched (trace s)) + size (pending_batch md s).
Proof.
  intros Hs Hcount Hne Hok.
  destruct (diffing_consistent W cfg md s Hs) as [Hnodup Hset].
  pose proof (diffing_batches W cfg md s) as Hbatches.
  rewrite decide_True in Hbatches by done.
  assert (size (already_deleted (diffing W cfg md s).2)
          = length (dispatched (trace (diffing W cfg md s).2))) as Hsize.
  { rewrite Hset. by apply size_list_to_set. }
  split.
  - rewrite <- Hsize. clear Hsize Hset Hnodup Hbatches.
    rewrite diffing_dispatch by done.
    apply report_finished in Hok. rewrite Hok. cbn [snd].
    rewrite trace_emit, (assoc_L (++)), last_snoc. done.
  - unfold dispatched. rewrite Hbatches, concat_app, length_app. simpl.
    by rewrite app_nil_r.
Qed.

(** ** The run ends when the index is empty *)

Lemma pass_on_first_answer (md : QueryResult) (s : State) :
  query_at (tick s) = Some md →
  (∀ t did, is_Some (delete_task W cfg t did)) →
  ∃ s1,
    body W cfg s = (Running, s1)
    ∧ tick s1 = S (tick s)
    ∧ queries (trace s1) = S (queries (trace s))
    ∧ keep_deleting s1
      = (if decide (0 < matching_results md)%Z then keep_deleting s else false)
    ∧ (¬ (0 < matching_results md)%Z →
       last (trace s1) = Some (Print no_documents_message)).
Proof.
  intros Hok Hdeletes.
  assert (body W cfg s = diffing W cfg md (polled cfg 0 md s)) as Hbody.
  { apply body_polled; [unfold max_tries; lia|intros j Hj; lia|].
    by rewrite Nat.add_0_r. }
  destruct (polled_frame cfg 0 md s) as (_ & Hkeep & _ & Htick & _).
  destruct (diffing_frame W cfg md (polled cfg 0 md s)) as (Htick' & _).
  pose proof (diffing_keep_deleting W cfg md (polled cfg 0 md s)) as Hkeep'.
  pose proof (queries_diffing W cfg md (polled cfg 0 md s)) as Hqueries.
  rewrite queries_polled in Hqueries.
  exists (body W cfg s).2. rewrite Hbody. split_and!.
  - destruct (decide (0 < matching_results md)%Z) as [Hcount|Hcount];
      [destruct (decide (pending_batch md (polled cfg 0 md s) = ∅))
         as [Hempty|Hne]|].
    + by rewrite diffing_settle_wait.
    + rewrite diffing_dispatch by done.
      assert ((report (delete_task W cfg (tick (polled cfg 0 md s))
                         <$> elements (pending_batch md (polled cfg 0 md s)))).2
              = true) as ->; [|done].
      apply report_finished, Forall_fmap, Forall_forall.
      intros did _. apply Hdeletes.
    + by rewrite diffing_no_documents.
  - rewrite Htick', Htick. lia.
  - rewrite Hqueries. lia.
  - by rewrite Hkeep', Hkeep.
  - intros Hcount. rewrite diffing_no_documents by done. cbn [snd].
    apply last_snoc.
Qed.

(** X9.  When no query and no delete request raises and the [n]+1-st query
    of the run from [s] is answered with a count that is not positive, the
    loop ends regularly after at most [n]+1 passes and as many queries, and
    the last line printed is the no-documents line. *)
Theorem run_ends_when_index_is_empty (n : nat) :
  ∀ s,
    keep_deleting s = true →
    (∀ t, is_Some (query_at t)) →
    (∀ t did, is_Some (delete_task W cfg t did)) →
    (∀ md, query_at (tick s + n) = Some md → ¬ (0 < matching_results md)%Z) →
    ∃ s',
      main_loop W cfg (S n) s = (Completed, s')
      ∧ last (trace s') = Some (Print no_documents_message)
      ∧ queries (trace s') ≤ queries (trace s) + S n.
Proof.
  induction n as [|n IH]; intros s Hkeep Hqueries Hdeletes Hempty.
  - destruct (Hqueries (tick s)) as [md Hmd].
    destruct (pass_on_first_answer md s Hmd Hdeletes)
      as (s1 & Hbody & _ & Hq & Hkeep1 & Hlast).
    assert (¬ (0 < matching_results md)%Z) as Hcount.
    { apply Hempty. by rewrite Nat.add_0_r. }
    rewrite decide_False in Hkeep1 by done.
    exists s1. rewrite main_loop_pass, Hbody by done.
    split_and!; [by apply main_loop_stopped|by apply Hlast|lia].
  - destruct (Hqueries (tick s)) as [md Hmd].
    destruct (pass_on_first_answer md s Hmd Hdeletes)
      as (s1 & Hbody & Htick & Hq & Hkeep1 & Hlast).
    rewrite main_loop_pass, Hbody by done.
    destruct (decide (0 < matching_results md)%Z) as [Hcount|Hcount].
    + destruct (IH s1) as (s' & Hrun & Hlast' & Hq'); [congruence|done..| |].
      * intros md' Hmd'. apply Hempty. rewrite <- Hmd'. f_equal. lia.
      * exists s'. split_and!; [done..|lia].
    + exists s1. split_and!; [by apply main_loop_stopped|by apply Hlast|lia].
Qed.

End Progress.

Lemma count_line_is_cumulative_witness :
  last (trace (diffing scenario_world cfg0 scenario_result initial_state).2)
  = Some (Print (sent_message
                   (length (dispatched
                              (trace (diffing scenario_world cfg0 scenario_result
                                        initial_state).2)))))
  ∧ length (dispatched
              (trace (diffing scenario_world cfg0 scenario_result initial_state).2))
    = length (dispatched (trace initial_state))
      + size (pending_batch scenario_result initial_state).
Proof.
  apply (count_line_is_cumulative scenario_world cfg0 scenario_result
           initial_state).
  - split; [constructor|reflexivity].
  - reflexivity.
  - intros Hempty. vm_compute in Hempty. discriminate Hempty.
  - apply Forall_fmap, Forall_forall. intros did _. by eexists.
Defined.

Lemma run_ends_when_index_is_empty_witness :
  ∃ s',
    main_loop scenario_world cfg0 (S 2) initial_state = (Completed, s')
    ∧ last (trace s') = Some (Print no_documents_message)
    ∧ queries (trace s') ≤ queries (trace initial_state) + S 2.
Proof.
  apply (run_ends_when_index_is_empty scenario_world cfg0 2 initial_state).
  - reflexivity.
  - intros t. simpl. destruct t as [|[|t]]; by eexists.
  - intros t did. by eexists.
  - intros md Hmd. simpl in Hmd. injection Hmd as <-. simpl. lia.
Defined.

(** ** The order of the requests *)

Lemma filter_all (P : string → Prop) `{!∀ x, Decision (P x)} (l : list string) :
  (∀ x, x ∈ l → P x) → filter P l = l.
Proof.
  induction l as [|x l IH]; intros Hall; [done|].
  rewrite filter_cons_True by (apply Hall, list_elem_of_here).
  f_equal. apply IH. intros y Hy. by apply Hall, list_elem_of_further.
Qed.

Lemma filter_none (P : string → Prop) `{!∀ x, Decision (P x)} (l : list string) :
  (∀ x, x ∈ l → ¬ P x) → filter P l = [].
Proof.
  induction l as [|x l IH]; intros Hnone; [done|].
  rewrite filter_cons_False by (apply Hnone, list_elem_of_here).
  apply IH. intros y Hy. by apply Hnone, list_elem_of_further.
Qed.

Section PoolOrder.

Context (max_workers : nat) (task : string → option string) (ids : list string).

Hypothesis ids_distinct : NoDup ids.

(** A request that has ended is not waiting in the queue. *)
Lemma ended_not_queued (p : Pool) (did : string) :
  pool_invariant max_workers task ids p →
  did ∈ ended p → did ∉ work_queue p.
Proof.
  intros (Hall & Hsent & _) Hended Hqueued.
  pose proof ids_distinct as Hnodup. rewrite <- Hall in Hnodup.
  apply NoDup_app in Hnodup as (_ & Hdisjoint & _).
  apply (Hdisjoint did).
  - rewrite <- Hsent. apply elem_of_app. by right.
  - apply elem_of_app. by left.
Qed.

Lemma pool_init_in_order : pool_in_order ids (pool_init ids).
Proof. split; simpl; [by rewrite app_nil_r|done]. Qed.

Lemma pool_act_in_order (a : Action) (p p' : Pool) :
  pool_invariant max_workers task ids p →
  pool_in_order ids p →
  pool_act max_workers task a p = Some p' →
  pool_in_order ids p'.
Proof.
  intros Hinv [Hids Hqueue] Hact.
  pose proof (λ did, ended_not_queued p did Hinv) as Hended.
  destruct Hinv as (_ & _ & _ & Hcancel & _).
  destruct a as [|worker|]; simpl in Hact.
  - destruct (work_queue p) as [|did queue] eqn:Hq; [done|].
    case_decide; [|done]. injection Hact as <-.
    split; simpl.
    + by rewrite Hids, <- (assoc_L (++)).
    + intros x Hx. by apply Hqueue, list_elem_of_further.
  - destruct (in_flight p !! worker) as [did|]; [|done].
    by injection Hact as <-.
  - destruct (reader p) eqn:Hrd; [|done..].
    destruct (futures p) as [|did fs] eqn:Hfs.
    + injection Hact as <-. split; simpl; [done|].
      intros x Hx. destruct (Hqueue x Hx) as [_ Hx']. by apply elem_of_nil in Hx'.
    + case_decide as Hdid; [|done].
      assert (∀ x, x ∈ work_queue p → x ∈ fs) as Hwaiting.
      { intros x Hx. destruct (Hqueue x Hx) as [_ Hx'].
        apply elem_of_cons in Hx' as [->|Hx']; [|done].
        by destruct (Hended did Hdid). }
      destruct (task did); injection Hact as <-; split; simpl.
      * done.
      * intros x Hx. split; [done|]. by apply Hwaiting.
      * rewrite (filter_all (λ x, x ∈ fs)) by done.
        rewrite (filter_none (λ x, x ∉ fs)) by (intros x Hx Hnot; by apply Hnot, Hwaiting).
        rewrite Hids, (Hcancel ltac:(done)). simpl. by rewrite app_nil_r.
      * intros x Hx.
        rewrite (filter_none (λ x, x ∉ fs)) in Hx
          by (intros y Hy Hnot; by apply Hnot, Hwaiting).
        by apply elem_of_nil in Hx.
Qed.

Lemma pool_run_in_order (schedule : list Action) :
  ∀ p p',
    pool_invariant max_workers task ids p →
    pool_in_order ids p →
    pool_run max_workers task schedule p = Some p' →
    pool_invariant max_workers task ids p' ∧ pool_in_order ids p'.
Proof.
  induction schedule as [|a schedule IH]; intros p p' Hinv Hord Hrun;
    simpl in Hrun.
  - by injection Hrun as <-.
  - destruct (pool_act max_workers task a p) as [p1|] eqn:Hact; [|done].
    apply (IH p1); [|by eapply pool_act_in_order|done].
    by eapply pool_act_invariant.
Qed.

End PoolOrder.

Section DispatcherOrder.

Context (W : World) (cfg : Config).

(** X10.  In every interleaving of the pool the delete requests are made in
    the order in which the batch was submitted: the requests made so far, the
    tasks still queued and the tasks cancelled are, in this order, the
    identifiers of the batch.  Once the main thread is through with the
    results, be it at their end or by an exception, the queue is empty and no
    further request can start. *)
Theorem requests_in_submission_order (md : QueryResult) (s : State)
    (schedule : list Action) (p : Pool) :
  let ids := elements (pending_batch md s) in
  let task := delete_task W cfg (tick s) in
  pool_run max_threads task schedule (pool_init ids) = Some p →
  ids = sent p ++ work_queue p ++ cancelled p
  ∧ sent p `prefix_of` ids
  ∧ (reader p ≠ Iterating →
     work_queue p = [] ∧ pool_act max_threads task Start p = None).
Proof.
  intros ids task Hrun.
  destruct (pool_run_in_order max_threads task ids (NoDup_elements _)
              schedule _ _ (pool_init_invariant max_threads task ids)
              (pool_init_in_order ids) Hrun) as [_ [Hids Hqueue]].
  split_and!.
  - exact Hids.
  - by eexists.
  - intros Hreader.
    assert (work_queue p = []) as Hq.
    { destruct (work_queue p) as [|did queue]; [done|].
      by destruct (Hqueue did (list_elem_of_here _ _)). }
    split; [done|]. simpl. by rewrite Hq.
Qed.


End DispatcherOrder.

Lemma requests_in_submission_order_witness :
  let ids := elements
               (pending_batch {| matching_results := 2;
                                 results := [hit "a"; hit "b"] |} initial_state) in
  let task := delete_task failing_deletes_world cfg0 (tick initial_state) in
  ∃ p,
    pool_run max_threads task [Start; Finish 0; Next] (pool_init ids) = Some p
    ∧ ids = sent p ++ work_queue p ++ cancelled p
    ∧ sent p `prefix_of` ids
    ∧ (reader p ≠ Iterating →
       work_queue p = [] ∧ pool_act max_threads task Start p = None).
Proof.
  intros ids task.
  assert (∃ p, pool_run max_threads task [Start; Finish 0; Next] (pool_init ids)
               = Some p) as [p Hrun].
  { eexists. vm_compute. reflexivity. }
  exists p. split; [exact Hrun|].
  exact (requests_in_submission_order failing_deletes_world cfg0
           {| matching_results := 2; results := [hit "a"; hit "b"] |}
           initial_state [Start; Finish 0; Next] p Hrun).
Defined.


Section Repetition.

Context (W : World) (cfg : Config).

Local Abbreviation query_at t :=
  (discovery_query W t (project_id cfg) (collection_id cfg) batch_size).

(** ** The same result twice *)

(** X12.  After the diffing step has handled a result with a positive
    count, nothing of that result is left to dispatch: handling the same
    result again, before the index has caught up, dispatches nothing and
    takes the settle wait, whatever the delete requests answered. *)
Theorem same_result_again_waits (md : QueryResult) (s : State) :
  (0 < matching_results md)%Z →
  pending_batch md (diffing W cfg md s).2 = ∅
  ∧ diffing W cfg md (diffing W cfg md s).2
    = (Running,
       emit [Print waiting_message; Sleep 30] (diffing W cfg md s).2).
Proof.
  intros Hcount.
  assert (pending_batch md (diffing W cfg md s).2 = ∅) as Hempty.
  { unfold pending_batch. apply subseteq_empty_difference_L.
    destruct (decide (pending_batch md s = ∅)) as [Hnone|Hsome].
    - rewrite diffing_settle_wait by done. cbn [snd].
      rewrite already_deleted_emit. unfold pending_batch in Hnone.
      intros x Hx. destruct (decide (x ∈ already_deleted s)) as [|Hnot]; [done|].
      assert (x ∈ list_to_set (document_id <$> results md) ∖ already_deleted s)
        as Hin by (by apply elem_of_difference).
      rewrite Hnone in Hin. by apply not_elem_of_empty in Hin.
    - assert (already_deleted (diffing W cfg md s).2
              = already_deleted s ∪ pending_batch md s) as ->.
      { rewrite diffing_dispatch by done. by destruct (report _).2. }
      unfold pending_batch. intros x Hx.
      destruct (decide (x ∈ already_deleted s)).
      + apply elem_of_union. by left.
      + apply elem_of_union. right. by apply elem_of_difference. }
  split; [done|]. by apply diffing_settle_wait.
Qed.

(** ** The run goes on while the index reports documents *)

(** X13.  When no query and no delete request raises and every answer has a
    positive count, the loop does not end: after any number of passes it is
    still running, and has made one query per pass. *)
Theorem run_goes_on_while_matches (fuel : nat) :
  ∀ s,
    keep_deleting s = true →
    (∀ t, ∃ md, query_at t = Some md ∧ (0 < matching_results md)%Z) →
    (∀ t did, is_Some (delete_task W cfg t did)) →
    (main_loop W cfg fuel s).1 = Running
    ∧ keep_deleting (main_loop W cfg fuel s).2 = true
    ∧ queries (trace (main_loop W cfg fuel s).2) = queries (trace s) + fuel.
Proof.
  induction fuel as [|fuel IH]; intros s Hkeep Hqueries Hdeletes.
  - simpl. rewrite Hkeep. simpl. split_and!; [done|done|lia].
  - destruct (Hqueries (tick s)) as (md & Hmd & Hcount).
    destruct (pass_on_first_answer W cfg md s Hmd Hdeletes)
      as (s1 & Hbody & _ & Hq & Hkeep1 & _).
    rewrite decide_True in Hkeep1 by done.
    rewrite main_loop_pass, Hbody by done.
    destruct (IH s1) as (Hrun & Hkeep' & Hq'); [congruence|done..|].
    split_and!; [done|done|lia].
Qed.

End Repetition.

Lemma same_result_again_waits_witness :
  pending_batch scenario_result
    (diffing scenario_world cfg0 scenario_result initial_state).2 = ∅
  ∧ diffing scenario_world cfg0 scenario_result
      (diffing scenario_world cfg0 scenario_result initial_state).2
    = (Running,
       emit [Print waiting_message; Sleep 30]
         (diffing scenario_world cfg0 scenario_result initial_state).2).
Proof.
  apply (same_result_again_waits scenario_world cfg0 scenario_result
           initial_state).
  reflexivity.
Defined.

Lemma run_goes_on_while_matches_witness :
  (main_loop lagging_world cfg0 4 initial_state).1 = Running
  ∧ keep_deleting (main_loop lagging_world cfg0 4 initial_state).2 = true
  ∧ queries (trace (main_loop lagging_world cfg0 4 initial_state).2)
    = queries (trace initial_state) + 4.
Proof.
  apply (run_goes_on_while_matches lagging_world cfg0 4 initial_state).
  - reflexivity.
  - intros t. eexists. split; reflexivity.
  - intros t did. by eexists.
Defined.

Lemma queries_per_pass_witness :
  queries (trace (body unreachable_world cfg0 initial_state).2)
  = queries (trace initial_state) + max_tries.
Proof.
  destruct (queries_per_pass unreachable_world cfg0 initial_state) as [_ Hgiven_up].
  apply (Hgiven_up 0%Z). reflexivity.
Defined.
